(** * basic_hash_table: an open-addressing hash table with quadratic probing

    A shallow embedding of [src/basic_hash_table.c] and
    [src/basic_hash_table.h], and the properties of the table proved or
    refuted on it.

    Modelling conventions.
    - [int] values ([key_size], [value_size], [reserved], [load], loop
      counters, iterators) are integers of [Z]; C's truncating [/] is
      [Z.quot].  The products and sums the code computes in [int] that
      can leave the range of [int] ([old * 2 - old / 2], [i * i], the
      sizes of [resize3]) go through [to_int], the two's-complement
      result of the compiled code; ISO C leaves these overflows
      undefined, and the statements about growth and probing say where
      none occurs.
    - [hash_t] is [size_t]: arithmetic on it wraps modulo [hash_modulus].
    - The three regions [keys], [values], [flags] are lists, co-indexed by
      slot; a slot's cell is read with [!!!] and written with [<[_:=_]>].
      The C code indexes them only at [(...) % reserved], which is in
      range on a table whose regions have [reserved] cells ([wf]).
    - Storage returned by [malloc] has indeterminate content: [inhabitant].
      [malloc] fails for a request above [PTRDIFF_MAX] and succeeds
      otherwise; a failed [assert] is the outcome [AssertionFailed], and
      a run that goes on to write outside its block is [Undefined].
    - The function pointers of the struct ([hash], [compar], [assign_key],
      [assign_value]) are the parameters of the section.  An assign
      callback is modelled by what it leaves in [*addr].
    - [log] is instrumentation, not a field of the C struct: the sequence
      of assign-callback invocations made by the mutating operations. *)

From Stdlib Require Import ZArith Lia List Permutation.
From stdpp Require Import base numbers list.

Local Open Scope Z_scope.

(** ** Flags, [enum elem_flags] *)

Inductive elem_flags := HASH_ELEM_EMPTY | HASH_ELEM_USED | HASH_ELEM_DELETED.

Definition flag_value (f : elem_flags) : Z :=
  match f with
  | HASH_ELEM_EMPTY => 0
  | HASH_ELEM_USED => 1
  | HASH_ELEM_DELETED => 2
  end.

#[global] Instance elem_flags_eq_dec : EqDecision elem_flags.
Proof. solve_decision. Defined.

#[global] Instance elem_flags_inhabited : Inhabited elem_flags :=
  populate HASH_ELEM_EMPTY.

(** ** [hash_t] and the hash helpers of the header *)

(** [size_t] has 64 bits (LP64); the header allows for 32 as well. *)
Definition hash_bits : Z := 64.
Definition hash_modulus : Z := 2 ^ hash_bits.

(** Conversion of a C integer to [hash_t]. *)
Definition to_hash_t (z : Z) : Z := z mod hash_modulus.

(** [jenkins_hash], Robert Jenkins' integer hash on a [hash_t]. *)
Definition jenkins_hash (a : Z) : Z :=
  let a := to_hash_t (to_hash_t (a + 0x7ed55d16) + to_hash_t (Z.shiftl a 12)) in
  let a := Z.lxor (Z.lxor a 0xc761c23c) (Z.shiftr a 19) in
  let a := to_hash_t (to_hash_t (a + 0x165667b1) + to_hash_t (Z.shiftl a 5)) in
  let a := Z.lxor (to_hash_t (a + 0xd3a2646c)) (to_hash_t (Z.shiftl a 9)) in
  let a := to_hash_t (to_hash_t (a + 0xfd7046c5) + to_hash_t (Z.shiftl a 3)) in
  let a := Z.lxor (Z.lxor a 0xb55a4f09) (Z.shiftr a 16) in
  a.

(** ** [int] *)

Definition INT_MAX : Z := 2 ^ 31 - 1.
Definition INT_MIN : Z := - 2 ^ 31.

(** The [int] an operation on [int]s leaves when its mathematical value
    is [z]: [z] itself when that is an [int], and the value congruent to
    it modulo [2 ^ 32] otherwise. *)
Definition to_int (z : Z) : Z := (z - INT_MIN) mod 2 ^ 32 + INT_MIN.

(** [index = (hash + i * i) % reserved]: [i * i] is a product of [int]s,
    converted to [hash_t] for the sum, which is computed in [hash_t]. *)
Definition probe_index (hash i reserved : Z) : Z :=
  to_hash_t (hash + to_int (i * i)) mod reserved.

(** ** Growth policy *)

Definition primes : list Z := [13; 17; 29; 47; 61; 97; 157; 251; 349].

(** The loop [for (i = i - 1; i >= 0; --i) if (old >= primes[i]) return
    primes[i + 1];] with [n] the number of indices still to visit. *)
Fixpoint next_prime_scan (old : Z) (n : nat) : option Z :=
  match n with
  | O => None
  | S i => if old >=? primes !!! i then Some (primes !!! S i)
           else next_prime_scan old i
  end.

Definition next_prime_size (old : Z) : Z :=
  if old <? primes !!! 0%nat then primes !!! 0%nat
  else
    let i := (length primes - 1)%nat in
    if old >=? primes !!! i then to_int (to_int (old * 2) - old ÷ 2)
    else match next_prime_scan old i with
         | Some p => p
         | None => to_int (to_int (old * 2) - old ÷ 2)
         end.

(** The capacities a table built by [new] goes through. *)
Definition capacity_ok (r : Z) : Prop := r ∈ primes ∨ 349 ≤ r.

(** ** Results of the operations that may not return *)

(** [Done]: the call returned.  [AssertionFailed]: an [assert] stopped
    the program.  [Undefined]: the call went on to access memory outside
    the block it allocated.  [OutOfFuel]: the model ran out of fuel. *)
Inductive outcome (A : Type) : Type :=
| Done (a : A)
| AssertionFailed
| Undefined
| OutOfFuel.
Arguments Done {A} a.
Arguments AssertionFailed {A}.
Arguments Undefined {A}.
Arguments OutOfFuel {A}.

#[global] Instance outcome_bind : MBind outcome := λ A B f m,
  match m with
  | Done a => f a
  | AssertionFailed => AssertionFailed
  | Undefined => Undefined
  | OutOfFuel => OutOfFuel
  end.

(** [m'] is [m] run with more fuel. *)
Definition outcome_le {A} (m m' : outcome A) : Prop :=
  m = OutOfFuel ∨ m = m'.

(** The call returned, or an [assert] stopped it. *)
Definition returns_or_aborts {A} (m : outcome A) : Prop :=
  (∃ a, m = Done a) ∨ m = AssertionFailed.

(** ** Allocation *)

(** [malloc] returns [NULL] for a request above [PTRDIFF_MAX]. *)
Definition PTRDIFF_MAX : Z := 2 ^ 63 - 1.

(** [resize3].  The size of the block, [(elemsizea + elemsizeb +
    elemsizec) * newsize], and the offsets [elemsizea * newsize] and
    [elemsizeb * newsize] of the regions in it are computed in [int];
    [malloc] takes the size as a [size_t].  A negative [int] size is a
    request above [PTRDIFF_MAX]: [malloc] returns [NULL] and
    [assert(np)] fails.  Otherwise the result gives the offsets of the
    regions [b] and [c], when the [newsize] cells of each of the three
    regions lie one region after the other inside the block; when they
    do not, the callers write outside the block. *)
Definition resize3 (elemsizea elemsizeb elemsizec newsize : Z)
    : outcome (Z * Z) :=
  let size :=
    to_hash_t (to_int (to_int (elemsizea + elemsizeb + elemsizec) * newsize)) in
  if size >? PTRDIFF_MAX then AssertionFailed
  else
    let b := to_int (elemsizea * newsize) in
    let c := b + to_int (elemsizeb * newsize) in
    if (0 <=? elemsizea) && (0 <=? elemsizeb) && (0 <=? elemsizec)
       && (0 <=? newsize)
       && (b =? elemsizea * newsize)
       && (c =? (elemsizea + elemsizeb) * newsize)
       && (c + elemsizec * newsize <=? size)
    then Done (b, c)
    else Undefined.

(** ** The table *)

(** [assign_table_elem_t]: [f cell new_elem old_elem] is the content of
    [*addr] after the call [f(addr, new_elem, old_elem, user_data)], where
    [cell] is its content before and [None] stands for a [NULL] pointer. *)
Definition assign_table_elem_t (T : Type) : Type := T → option T → option T → T.

(** Where the [addr] argument of a callback points. *)
Inductive addr := Slot (index : Z) | Caller.

Section Table.
Context {K V : Type} `{!Inhabited K, !Inhabited V}.

Inductive assign_call :=
| AssignKey (dst : addr) (new_elem old_elem : option K)
| AssignValue (dst : addr) (new_elem old_elem : option V).

Record basic_hash_table := mk_table {
  key_size : Z;
  value_size : Z;
  reserved : Z;
  load : Z;
  keys : list K;
  values : list V;
  flags : list elem_flags;
  log : list assign_call
}.

Variable hash : K → Z.
Variable compar : K → K → Z.
Variable assign_key : assign_table_elem_t K.
Variable assign_value : assign_table_elem_t V.

Definition key_at (t : basic_hash_table) (index : Z) : K :=
  keys t !!! Z.to_nat index.
Definition value_at (t : basic_hash_table) (index : Z) : V :=
  values t !!! Z.to_nat index.
Definition flag_at (t : basic_hash_table) (index : Z) : elem_flags :=
  flags t !!! Z.to_nat index.

(** *** [basic_hash_table_set_inner] and [basic_hash_table_rehash] *)

(** The branch of the probe loop that claims a free slot. *)
Definition place_new (t : basic_hash_table) (index : Z)
    (key : K) (value : V) (reset : bool) : basic_hash_table :=
  let old_k := if reset then Some key else None in
  let old_v := if reset then Some value else None in
  {| key_size := key_size t;
     value_size := value_size t;
     reserved := reserved t;
     load := load t + 1;
     keys := <[Z.to_nat index := assign_key (key_at t index) (Some key) old_k]> (keys t);
     values := <[Z.to_nat index := assign_value (value_at t index) (Some value) old_v]> (values t);
     flags := <[Z.to_nat index := HASH_ELEM_USED]> (flags t);
     log := log t ++ [AssignKey (Slot index) (Some key) old_k;
                      AssignValue (Slot index) (Some value) old_v] |}.

(** The branch of the probe loop that overwrites the value of a slot
    whose key compares equal. *)
Definition replace_value (t : basic_hash_table) (index : Z)
    (value : V) : basic_hash_table :=
  {| key_size := key_size t;
     value_size := value_size t;
     reserved := reserved t;
     load := load t;
     keys := keys t;
     values := <[Z.to_nat index := assign_value (value_at t index) (Some value)
                                    (Some (value_at t index))]> (values t);
     flags := <[Z.to_nat index := HASH_ELEM_USED]> (flags t);
     log := log t ++ [AssignValue (Slot index) (Some value)
                        (Some (value_at t index))] |}.

(** [for (int i = 0; i < reserved; ++i)] of [set_inner]; [n] is
    [reserved - i].  [None]: the scan ended without a [return]. *)
Fixpoint set_probe (t : basic_hash_table) (key : K) (value : V)
    (reset : bool) (h : Z) (i : Z) (n : nat) : option (Z * basic_hash_table) :=
  match n with
  | O => None
  | S n' =>
      let index := probe_index h i (reserved t) in
      if bool_decide (flag_at t index = HASH_ELEM_EMPTY)
         || bool_decide (flag_at t index = HASH_ELEM_DELETED)
      then Some (1, place_new t index key value reset)
      else if compar key (key_at t index) =? 0
      then Some (0, replace_value t index value)
      else set_probe t key value reset h (i + 1) n'
  end.

(** The table of [rehash] when its loop starts, after [resize3] has
    returned: [keys], [values] and [flags] are the regions of the new
    block, of [newsize] cells each, [memset] has cleared the flags,
    [load = 0] and [reserved = newsize]. *)
Definition rehash_init (t : basic_hash_table) (newsize : Z) : basic_hash_table :=
  {| key_size := key_size t;
     value_size := value_size t;
     reserved := newsize;
     load := 0;
     keys := replicate (Z.to_nat newsize) inhabitant;
     values := replicate (Z.to_nat newsize) inhabitant;
     flags := replicate (Z.to_nat newsize) HASH_ELEM_EMPTY;
     log := log t |}.

(** The loop of [rehash] over the old regions: [old_k], [old_v], [old_f]
    advance by one cell per iteration, [n] iterations remain.  [ins] is
    [basic_hash_table_set_inner(table, old_k, old_v, 1)].  The callers
    pass [oldsize = reserved], the number of cells of the old regions;
    the loop of the model ends where a region does. *)
Fixpoint rehash_loop (ins : basic_hash_table → K → V → outcome (Z * basic_hash_table))
    (old_k : list K) (old_v : list V) (old_f : list elem_flags) (n : nat)
    (t : basic_hash_table) {struct n} : outcome basic_hash_table :=
  match n, old_k, old_v, old_f with
  | S n', k :: old_k', v :: old_v', f :: old_f' =>
      t' ← (if Z.land (flag_value f) (flag_value HASH_ELEM_USED) =? 0
            then Done t
            else r ← ins t k v ; Done (snd r)) ;
      rehash_loop ins old_k' old_v' old_f' n' t'
  | _, _, _, _ => Done t
  end.

(** [rehash]: [resize3] with the element sizes of the table and
    [sizeof(table->flags[0]) = 1], then the loop over the old regions. *)
Definition rehash_with (ins : basic_hash_table → K → V → outcome (Z * basic_hash_table))
    (t : basic_hash_table) (oldsize newsize : Z) : outcome basic_hash_table :=
  resize3 (key_size t) (value_size t) 1 newsize ;;
  rehash_loop ins (keys t) (values t) (flags t) (Z.to_nat oldsize)
    (rehash_init t newsize).

(** [set_inner] and [rehash] call each other and [while (1)] has no
    bound of its own: the three functions recurse on [fuel], which
    bounds the depth of calls and retries. *)
Fixpoint basic_hash_table_set_inner (fuel : nat) (t : basic_hash_table)
    (key : K) (value : V) (reset : bool) {struct fuel}
    : outcome (Z * basic_hash_table) :=
  match fuel with
  | O => OutOfFuel
  | S fuel' =>
      let reserved := reserved t in
      t1 ← (if load t >? reserved ÷ 2
            then if reset then AssertionFailed
                 else basic_hash_table_rehash fuel' t reserved (next_prime_size reserved)
            else Done t) ;
      set_inner_while fuel' t1 key value reset
  end
with set_inner_while (fuel : nat) (t : basic_hash_table)
    (key : K) (value : V) (reset : bool) {struct fuel}
    : outcome (Z * basic_hash_table) :=
  match fuel with
  | O => OutOfFuel
  | S fuel' =>
      let reserved := reserved t in
      match set_probe t key value reset (hash key) 0 (Z.to_nat reserved) with
      | Some r => Done r
      | None =>
          t' ← basic_hash_table_rehash fuel' t reserved (next_prime_size reserved) ;
          set_inner_while fuel' t' key value reset
      end
  end
with basic_hash_table_rehash (fuel : nat) (t : basic_hash_table)
    (oldsize newsize : Z) {struct fuel} : outcome basic_hash_table :=
  match fuel with
  | O => OutOfFuel
  | S fuel' =>
      rehash_with (fun t k v => basic_hash_table_set_inner fuel' t k v true)
        t oldsize newsize
  end.

Definition basic_hash_table_set (fuel : nat) (t : basic_hash_table)
    (key : K) (value : V) : outcome (Z * basic_hash_table) :=
  basic_hash_table_set_inner fuel t key value false.

(** [basic_hash_table_new]: the struct with the two element sizes, no
    storage and [reserved = load = 0], rehashed to [primes[0]]. *)
Definition basic_hash_table_new (key_size value_size : Z) (fuel : nat)
    : outcome basic_hash_table :=
  basic_hash_table_rehash fuel (mk_table key_size value_size 0 0 [] [] [] [])
    0 (primes !!! 0%nat).

(** *** [basic_hash_table_get_inner], [get], [remove] *)

(** The probe loop of [get_inner]; [Some index] when it returns 1. *)
Fixpoint get_probe (t : basic_hash_table) (key : K) (h : Z) (i : Z)
    (n : nat) : option Z :=
  match n with
  | O => None
  | S n' =>
      let index := probe_index h i (reserved t) in
      if bool_decide (flag_at t index = HASH_ELEM_USED)
         && (compar key (key_at t index) =? 0)
      then Some index
      else if bool_decide (flag_at t index = HASH_ELEM_EMPTY)
      then None
      else get_probe t key h (i + 1) n'
  end.

(** What [get_inner] returns and leaves behind its two out pointers
    ([None]: the pointer is [NULL]), and the callbacks it invoked. *)
Record get_result := mk_get_result {
  found : Z;
  value_out : option V;
  index_out : option Z;
  get_calls : list assign_call
}.

Definition basic_hash_table_get_inner (t : basic_hash_table) (key : K)
    (value_out : option V) (index_out : option Z) : get_result :=
  match get_probe t key (hash key) 0 (Z.to_nat (reserved t)) with
  | Some index =>
      let tv := value_at t index in
      {| found := 1;
         value_out := (λ out, assign_value out (Some tv) (Some tv)) <$> value_out;
         index_out := (λ _, index) <$> index_out;
         get_calls := match value_out with
                      | Some _ => [AssignValue Caller (Some tv) (Some tv)]
                      | None => []
                      end |}
  | None =>
      {| found := 0; value_out := value_out; index_out := index_out;
         get_calls := [] |}
  end.

Definition basic_hash_table_get (t : basic_hash_table) (key : K)
    (value : option V) : get_result :=
  basic_hash_table_get_inner t key value None.

(** [remove] returns [removed], the table and the [out] buffer.  The
    local [int index] is passed uninitialised to [get_inner]. *)
Definition basic_hash_table_remove (t : basic_hash_table) (key : K)
    (out : option V) : Z * basic_hash_table * option V :=
  let r := basic_hash_table_get_inner t key out (Some inhabitant) in
  let t := mk_table (key_size t) (value_size t) (reserved t) (load t)
             (keys t) (values t) (flags t) (log t ++ get_calls r) in
  let removed := found r in
  if removed =? 0 then (removed, t, value_out r)
  else
    let index := default inhabitant (index_out r) in
    let old_k := key_at t index in
    let old_v := value_at t index in
    (removed,
     {| key_size := key_size t;
        value_size := value_size t;
        reserved := reserved t;
        load := load t;
        keys := <[Z.to_nat index := assign_key old_k None (Some old_k)]> (keys t);
        values := <[Z.to_nat index := assign_value old_v None (Some old_v)]> (values t);
        flags := <[Z.to_nat index := HASH_ELEM_DELETED]> (flags t);
        log := log t ++ [AssignKey (Slot index) None (Some old_k);
                         AssignValue (Slot index) None (Some old_v)] |},
     value_out r).

(** *** Iteration *)

Definition basic_hash_table_begin (t : basic_hash_table) : Z := 0.
Definition basic_hash_table_end (t : basic_hash_table) : Z := reserved t.

(** [while (iter < table->reserved && table->flags[iter] != HASH_ELEM_USED)
    iter++;] with [n] a bound on the iterations left. *)
Fixpoint next_scan (t : basic_hash_table) (iter : Z) (n : nat) : Z :=
  match n with
  | O => iter
  | S n' =>
      if (iter <? reserved t)
         && negb (bool_decide (flag_at t iter = HASH_ELEM_USED))
      then next_scan t (iter + 1) n'
      else iter
  end.

(** [next] returns the cursor, the caller's two buffers and the
    callbacks invoked (none when the scan reached the end). *)
Definition basic_hash_table_next (t : basic_hash_table) (iter : Z)
    (key : K) (value : V) : Z * K * V * list assign_call :=
  let iter := next_scan t iter (Z.to_nat (reserved t - iter)) in
  if iter >=? reserved t then (reserved t, key, value, [])
  else
    let tk := key_at t iter in
    let tv := value_at t iter in
    (iter + 1,
     assign_key key (Some tk) (Some tk),
     assign_value value (Some tv) (Some tv),
     [AssignKey Caller (Some tk) (Some tk);
      AssignValue Caller (Some tv) (Some tv)]).

(** The header gives a caller the cursor [next] returns and the two
    buffers, nothing else.  Two loops can be written with them; [n]
    bounds the number of calls, each of which advances the cursor. *)

(** [for (it = begin(t); it != end(t);) { it = next(t, it, &k, &v);
    visit(k, v); }]: the buffers are visited after every call. *)
Fixpoint iterate_each_call (t : basic_hash_table) (iter : Z) (key : K)
    (value : V) (n : nat) : list (K * V) :=
  match n with
  | O => []
  | S n' =>
      if iter =? basic_hash_table_end t then []
      else
        let '(iter', key', value', _) :=
          basic_hash_table_next t iter key value in
        (key', value') :: iterate_each_call t iter' key' value' n'
  end.

(** [it = next(t, begin(t), &k, &v); while (it != end(t)) { visit(k, v);
    it = next(t, it, &k, &v); }]: the buffers are visited after the
    calls that did not return [end]. *)
Fixpoint iterate_until_end (t : basic_hash_table) (iter : Z) (key : K)
    (value : V) (n : nat) : list (K * V) :=
  match n with
  | O => []
  | S n' =>
      let '(iter', key', value', _) :=
        basic_hash_table_next t iter key value in
      if iter' =? basic_hash_table_end t then []
      else (key', value') :: iterate_until_end t iter' key' value' n'
  end.

(** *** Well-formed tables and their contents *)

(** The three regions hold [reserved] cells each. *)
Definition wf (t : basic_hash_table) : Prop :=
  0 < reserved t
  ∧ length (keys t) = Z.to_nat (reserved t)
  ∧ length (values t) = Z.to_nat (reserved t)
  ∧ length (flags t) = Z.to_nat (reserved t).

(** The key/value pairs of the used slots, in slot order. *)
Fixpoint entries_of (ks : list K) (vs : list V) (fs : list elem_flags)
    : list (K * V) :=
  match ks, vs, fs with
  | k :: ks, v :: vs, f :: fs =>
      if decide (f = HASH_ELEM_USED) then (k, v) :: entries_of ks vs fs
      else entries_of ks vs fs
  | _, _, _ => []
  end.

Definition entries (t : basic_hash_table) : list (K * V) :=
  entries_of (keys t) (values t) (flags t).

(** The loop of [test_stol], [for (...) basic_hash_table_set(table, keys
    + i, values + i);], over the list of pairs. *)
Fixpoint set_all (fuel : nat) (t : basic_hash_table) (kvs : list (K * V))
    : outcome basic_hash_table :=
  match kvs with
  | [] => Done t
  | (k, v) :: kvs =>
      r ← basic_hash_table_set fuel t k v; set_all fuel r.2 kvs
  end.

(** The slots that hold [key]: used, and comparing equal to it. *)
Definition slots_holding (t : basic_hash_table) (key : K) : list Z :=
  filter (λ index, flag_at t index = HASH_ELEM_USED
                   ∧ compar key (key_at t index) = 0)
    (seqZ 0 (reserved t)).

(** Number of slots flagged [f]. *)
Definition count_flag (f : elem_flags) (t : basic_hash_table) : Z :=
  Z.of_nat (length (filter (λ g, g = f) (flags t))).

(** The tables a caller can hold: made by [new], then changed by [set]
    and [remove] calls that returned. *)
Inductive reachable : basic_hash_table → Prop :=
| reachable_new key_size value_size fuel t :
    basic_hash_table_new key_size value_size fuel = Done t → reachable t
| reachable_set fuel t key value r t' :
    reachable t →
    basic_hash_table_set fuel t key value = Done (r, t') →
    reachable t'
| reachable_remove t key out r t' out' :
    reachable t →
    basic_hash_table_remove t key out = (r, t', out') →
    reachable t'.

(** *** Predicates of the statements *)

(** A slot [get] stops at with success. *)
Definition slot_matches (t : basic_hash_table) (key : K) (index : Z) : Prop :=
  flag_at t index = HASH_ELEM_USED ∧ compar key (key_at t index) = 0.

(** A slot [get] steps over: a tombstone, or a slot used by another key. *)
Definition slot_skipped (t : basic_hash_table) (key : K) (index : Z) : Prop :=
  flag_at t index = HASH_ELEM_DELETED
  ∨ (flag_at t index = HASH_ELEM_USED ∧ compar key (key_at t index) ≠ 0).

(** A slot the loop of [set] steps over. *)
Definition slot_taken (t : basic_hash_table) (key : K) (index : Z) : Prop :=
  flag_at t index = HASH_ELEM_USED ∧ compar key (key_at t index) ≠ 0.

(** The two results of [get_inner]. *)
Definition get_miss (value_out : option V) (index_out : option Z)
    : get_result :=
  {| found := 0; value_out := value_out; index_out := index_out;
     get_calls := [] |}.

Definition get_hit (t : basic_hash_table) (index : Z) (value_out : option V)
    (index_out : option Z) : get_result :=
  let tv := value_at t index in
  {| found := 1;
     value_out := (λ out, assign_value out (Some tv) (Some tv)) <$> value_out;
     index_out := (λ _, index) <$> index_out;
     get_calls := match value_out with
                  | Some _ => [AssignValue Caller (Some tv) (Some tv)]
                  | None => []
                  end |}.

(** Where the loop of [set] stopped, and what it did there. *)
Inductive set_probe_at (t : basic_hash_table) (key : K) (value : V)
    (reset : bool) (h : Z) (i0 : Z) (n : nat) (r : Z)
    (t' : basic_hash_table) : Prop :=
| set_probe_at_intro (d : nat) :
    (d < n)%nat →
    (∀ j, i0 ≤ j < i0 + Z.of_nat d →
          slot_taken t key (probe_index h j (reserved t))) →
    let index := probe_index h (i0 + Z.of_nat d) (reserved t) in
    (flag_at t index ≠ HASH_ELEM_USED ∧ r = 1
       ∧ t' = place_new t index key value reset)
    ∨ (slot_matches t key index ∧ r = 0 ∧ t' = replace_value t index value) →
    set_probe_at t key value reset h i0 n r t'.

Definition used_count (t : basic_hash_table) : Z :=
  count_flag HASH_ELEM_USED t.

(** The block of the table has an [int] size: [resize3] returned for
    its [reserved] cells. *)
Definition fits (t : basic_hash_table) : Prop :=
  0 ≤ key_size t ∧ 0 ≤ value_size t
  ∧ (key_size t + value_size t + 1) * reserved t ≤ INT_MAX.

(** The invariant of the tables [new] and [set] build. *)
Definition counted (t : basic_hash_table) : Prop :=
  wf t ∧ capacity_ok (reserved t) ∧ used_count t ≤ load t ∧ fits t.

(** The three regions hold [reserved] cells each, of a table that may
    have none. *)
Definition sized (t : basic_hash_table) : Prop :=
  length (keys t) = Z.to_nat (reserved t)
  ∧ length (values t) = Z.to_nat (reserved t)
  ∧ length (flags t) = Z.to_nat (reserved t).

(** The entries of the slots from [i] on. *)
Definition entries_from (t : basic_hash_table) (i : nat) : list (K * V) :=
  entries_of (drop i (keys t)) (drop i (values t)) (drop i (flags t)).

(** Every used slot is where [get] arrives for its key: the probes
    before it meet slots used by other keys. *)
Definition findable (t : basic_hash_table) : Prop :=
  ∀ x, 0 ≤ x < reserved t → flag_at t x = HASH_ELEM_USED →
    ∃ j, 0 ≤ j < reserved t
         ∧ probe_index (hash (key_at t x)) j (reserved t) = x
         ∧ ∀ j', 0 ≤ j' < j →
                 slot_taken t (key_at t x)
                   (probe_index (hash (key_at t x)) j' (reserved t)).

(** What holds of a table that [rehash] is filling: no tombstone,
    [load] counts the used slots, every used slot is findable. *)
Definition built (t : basic_hash_table) : Prop :=
  wf t ∧ Forall (λ f, f ≠ HASH_ELEM_DELETED) (flags t)
  ∧ load t = used_count t ∧ findable t.

(** What holds of the table when [while (1)] is entered, with [N] a
    bound on the number of used slots: the block of a table of
    [8 N² + 698] cells still has an [int] size. *)
Definition while_ready (N : Z) (t : basic_hash_table) : Prop :=
  counted t ∧ used_count t ≤ N ∧ load t ≤ reserved t ÷ 2
  ∧ (key_size t + value_size t + 1) * (8 * N * N + 698) ≤ INT_MAX.

Definition while_terminates (t : basic_hash_table) : Prop :=
  ∀ key value reset,
    ∃ fuel r t', set_inner_while fuel t key value reset = Done (r, t').

(** [while (1)] ends: with a [return], or in the [assert] of [resize3]. *)
Definition while_ends (t : basic_hash_table) : Prop :=
  ∀ key value reset,
    ∃ fuel, returns_or_aborts (set_inner_while fuel t key value reset).

End Table.

Arguments basic_hash_table : clear implicits.
Arguments assign_call : clear implicits.
Arguments get_result : clear implicits.

(** ** The policies of the source's own tests *)

(** [assign_short], [assign_long]: [if (new_elem) *addr = *new_elem]. *)
Definition assign_short : assign_table_elem_t Z :=
  λ cell new_elem old_elem,
    match new_elem with Some x => x | None => cell end.

Definition assign_long : assign_table_elem_t Z :=
  λ cell new_elem old_elem,
    match new_elem with Some x => x | None => cell end.

Definition hash_short (key : Z) : Z := jenkins_hash (to_hash_t key).

Definition compare_short (a b : Z) : Z := a - b.

(** A hash that sends every key to itself, for tables whose layout can
    be read off the keys. *)
Definition hash_id (key : Z) : Z := to_hash_t key.

(** A hash that sends every key to the largest [hash_t]. *)
Definition hash_max (key : Z) : Z := hash_modulus - 1.

(** [sizeof(short)] and [sizeof(long)] (LP64). *)
Definition sizeof_short : Z := 2.
Definition sizeof_long : Z := 8.

Module Examples.

(** Tables from [short] to [long] with the callbacks of [test_stol] and a
    hash to choose; [fuel] 10 is more than these runs need. *)
Abbreviation table := (basic_hash_table Z Z).

(** A caller's calls. *)
Inductive op := Set_ (key value : Z) | Remove_ (key : Z).

Section Policy.
Variable hash : Z → Z.

Definition new : outcome table :=
  basic_hash_table_new hash compare_short assign_short assign_long
    sizeof_short sizeof_long 10.
Definition set (t : table) (key value : Z) : outcome (Z * table) :=
  basic_hash_table_set hash compare_short assign_short assign_long 10
    t key value.
Definition get (t : table) (key : Z) : get_result Z Z :=
  basic_hash_table_get hash compare_short assign_long t key (Some 0).
Definition remove (t : table) (key : Z) : Z * table * option Z :=
  basic_hash_table_remove hash compare_short assign_short assign_long
    t key None.
Definition rehash (t : table) : outcome table :=
  basic_hash_table_rehash hash compare_short assign_short assign_long 10
    t (reserved t) (next_prime_size (reserved t)).

(** The calls [ops], run in order from [t]. *)
Fixpoint run (t : table) (ops : list op) : outcome table :=
  match ops with
  | [] => Done t
  | Set_ k v :: ops => r ← set t k v; run r.2 ops
  | Remove_ k :: ops => run (remove t k).1.2 ops
  end.

(** The table after [new] and then [ops]; the empty struct if a call
    did not return. *)
Definition table_after (ops : list op) : table :=
  match t ← new; run t ops with
  | Done t => t
  | _ => mk_table 0 0 0 0 [] [] [] []
  end.

End Policy.

(** [set(0, 0); set(1, 10); ...; set(n - 1, 10 (n - 1))]. *)
Definition fill (n : nat) : list op :=
  (λ i : nat, Set_ (Z.of_nat i) (10 * Z.of_nat i)) <$> seq 0 n.

(** Keys 0 and 13 collide at capacity 13.  After the removal of 0, key
    13 sits at probe position 1 behind a tombstone at position 0. *)
Definition behind_tombstone : list op :=
  [Set_ 0 100; Set_ 13 113; Remove_ 0].

(** The second [set] of 13 lands in the tombstone: slots 0 and 1 both
    hold key 13, with values 213 and 113. *)
Definition duplicated : list op := behind_tombstone ++ [Set_ 13 213].

(** [duplicated], then filled to [load = 7 > 13 / 2]. *)
Definition duplicated_full : list op :=
  duplicated ++ [Set_ 2 20; Set_ 3 30; Set_ 4 40; Set_ 5 50].

(** [behind_tombstone], then filled to [load = 7 > 13 / 2]. *)
Definition behind_tombstone_full : list op :=
  behind_tombstone ++ [Set_ 2 20; Set_ 3 30; Set_ 4 40; Set_ 5 50; Set_ 6 60].

(** Keys 0, 13, 26 collide; after the removals, key 26 sits at probe
    position 2 behind tombstones at positions 0 and 1. *)
Definition behind_two_tombstones : list op :=
  [Set_ 0 100; Set_ 13 113; Set_ 26 126; Remove_ 0; Remove_ 13].

(** With [hash_short], the hash of [test_stol], its keys 6 and 10
    collide at capacity 13: the tables above, with 6 for 0 and 10 for 13. *)
Definition stol_duplicated : list op :=
  [Set_ 6 60; Set_ 10 100; Remove_ 6; Set_ 10 101].

(** The scenario of [test_stol], with its own hash. *)
Definition stol_keys : list Z := [1; 6; 10; 2; 1000; 2342; 4; 5].
Definition stol_values : list Z := [10; 60; 100; 20; 10000; 23420; 40; 50].

Definition stol_new : outcome table :=
  basic_hash_table_new hash_short compare_short assign_short assign_long
    sizeof_short sizeof_long 10.

Definition stol_empty : table :=
  match stol_new with
  | Done t => t
  | _ => mk_table 0 0 0 0 [] [] [] []
  end.

Definition stol : outcome table :=
  set_all hash_short compare_short assign_short assign_long 10 stol_empty
    (zip stol_keys stol_values).

Definition stol_table : table :=
  match stol with
  | Done t => t
  | _ => mk_table 0 0 0 0 [] [] [] []
  end.

End Examples.

(** * Properties *)

Lemma bind_Done {A B} (m : outcome A) (f : A → outcome B) (b : B) :
  m ≫= f = Done b ↔ ∃ a, m = Done a ∧ f a = Done b.
Proof.
  destruct m; cbn; split; try done; try (by intros (? & ? & ?)); eauto.
  by intros (? & [= <-] & ?).
Qed.

(** ** Arithmetic of the probe sequence and of the growth policy *)

Lemma hash_modulus_pos : 0 < hash_modulus.
Proof. reflexivity. Qed.

Lemma to_hash_t_range z : 0 ≤ to_hash_t z < hash_modulus.
Proof. apply Z.mod_pos_bound, hash_modulus_pos. Qed.

Lemma probe_index_range h i r : 0 < r → 0 ≤ probe_index h i r < r.
Proof. intros Hr. unfold probe_index. by apply Z.mod_pos_bound. Qed.

(** *** [int] results *)

Lemma to_int_range z : INT_MIN ≤ to_int z ≤ INT_MAX.
Proof.
  unfold to_int, INT_MIN, INT_MAX.
  pose proof (Z.mod_pos_bound (z - - 2 ^ 31) (2 ^ 32)). lia.
Qed.

Lemma to_int_small z : INT_MIN ≤ z ≤ INT_MAX → to_int z = z.
Proof.
  unfold to_int, INT_MIN, INT_MAX. intros Hz.
  rewrite Z.mod_small by lia. lia.
Qed.

(** The [int] result differs from the value by a multiple of [2 ^ 32]. *)
Lemma to_int_wraps z : ∃ k, to_int z = z - 2 ^ 32 * k.
Proof.
  unfold to_int. exists ((z - INT_MIN) / 2 ^ 32).
  pose proof (Z.div_mod (z - INT_MIN) (2 ^ 32)). lia.
Qed.

(** Above [INT_MAX] and below [2 ^ 32] the result is negative. *)
Lemma to_int_above z : INT_MAX < z < 2 ^ 32 → to_int z = z - 2 ^ 32.
Proof.
  unfold to_int, INT_MIN, INT_MAX. intros Hz.
  replace (z - - 2 ^ 31) with (z - 2 ^ 31 + 1 * 2 ^ 32) by lia.
  rewrite Z.mod_add, Z.mod_small by lia. lia.
Qed.

(** Without wrap-around of the [int] product and of the [hash_t] sum,
    the index is the quadratic-probing index of the glossary. *)
Lemma probe_index_int h i r :
  0 ≤ i → i * i ≤ INT_MAX → probe_index h i r = to_hash_t (h + i * i) mod r.
Proof.
  intros Hi Hii. unfold probe_index.
  rewrite to_int_small; [done|]. unfold INT_MIN, INT_MAX in *. nia.
Qed.

Lemma probe_index_no_wrap h i r :
  0 ≤ i → i * i ≤ INT_MAX →
  0 ≤ h → h + i * i < hash_modulus → probe_index h i r = (h + i * i) mod r.
Proof.
  intros Hi Hii Hh Hlt. rewrite probe_index_int by done. unfold to_hash_t.
  rewrite (Z.mod_small (h + i * i) hash_modulus); [done | nia].
Qed.

(** *** The growth policy *)

Lemma next_prime_size_cases old :
  (old < 13 ∧ next_prime_size old = 13)
  ∨ (13 ≤ old < 17 ∧ next_prime_size old = 17)
  ∨ (17 ≤ old < 29 ∧ next_prime_size old = 29)
  ∨ (29 ≤ old < 47 ∧ next_prime_size old = 47)
  ∨ (47 ≤ old < 61 ∧ next_prime_size old = 61)
  ∨ (61 ≤ old < 97 ∧ next_prime_size old = 97)
  ∨ (97 ≤ old < 157 ∧ next_prime_size old = 157)
  ∨ (157 ≤ old < 251 ∧ next_prime_size old = 251)
  ∨ (251 ≤ old < 349 ∧ next_prime_size old = 349)
  ∨ (349 ≤ old
     ∧ next_prime_size old = to_int (to_int (old * 2) - old ÷ 2)).
Proof.
  unfold next_prime_size, next_prime_scan. cbn.
  repeat match goal with
         | |- context [?a <? ?b] => destruct (Z.ltb_spec a b)
         | |- context [?a >=? ?b] =>
             rewrite (Z.geb_leb a b); destruct (Z.leb_spec b a)
         end; lia.
Qed.

Lemma quot2_bounds old : 0 ≤ old → old - 1 ≤ old ÷ 2 * 2 ≤ old.
Proof.
  intros H. pose proof (Z.quot_rem' old 2).
  pose proof (Z.rem_bound_pos old 2). lia.
Qed.

(** Where [old * 2] is an [int], so are [old / 2] and the difference:
    no operation of [old * 2 - old / 2] overflows. *)
Lemma grow_int old :
  0 ≤ old → old * 2 ≤ INT_MAX →
  to_int (to_int (old * 2) - old ÷ 2) = old * 2 - old ÷ 2.
Proof.
  intros H0 Hhi. pose proof (quot2_bounds old H0).
  unfold INT_MAX in Hhi.
  rewrite (to_int_small (old * 2)) by (unfold INT_MIN, INT_MAX; lia).
  apply to_int_small. unfold INT_MIN, INT_MAX. lia.
Qed.

(** On an [int], a result that is not negative is the value of
    [old * 2 - old / 2]. *)
Lemma grow_nonneg old :
  0 ≤ old ≤ INT_MAX → 0 ≤ to_int (to_int (old * 2) - old ÷ 2) →
  to_int (to_int (old * 2) - old ÷ 2) = old * 2 - old ÷ 2.
Proof.
  intros Hold Hpos. pose proof (quot2_bounds old ltac:(lia)).
  destruct (to_int_wraps (old * 2)) as [k1 H1].
  destruct (to_int_wraps (to_int (old * 2) - old ÷ 2)) as [k2 H2].
  pose proof (to_int_range (to_int (old * 2) - old ÷ 2)).
  unfold INT_MIN, INT_MAX in *. lia.
Qed.

(** The next capacity of an [int] capacity, when it is not negative:
    larger, an [int], a capacity of the growth policy, and at most twice
    the old one from 13 on. *)
Lemma next_prime_size_grows old :
  old ≤ INT_MAX → 0 ≤ next_prime_size old →
  old < next_prime_size old ≤ INT_MAX
  ∧ capacity_ok (next_prime_size old)
  ∧ next_prime_size old ≤ 13 `max` (old * 2)
  ∧ (349 ≤ old → next_prime_size old = old * 2 - old ÷ 2).
Proof.
  intros Hhi Hpos. unfold capacity_ok, primes.
  rewrite !elem_of_cons, elem_of_nil.
  destruct (next_prime_size_cases old) as
    [H|[H|[H|[H|[H|[H|[H|[H|[H|[H1 H2]]]]]]]]]];
    try (unfold INT_MAX in *; lia).
  rewrite H2 in Hpos |- *. rewrite grow_nonneg by lia.
  pose proof (quot2_bounds old ltac:(lia)).
  pose proof (grow_nonneg old ltac:(lia) Hpos) as He.
  pose proof (to_int_range (to_int (old * 2) - old ÷ 2)) as Hr.
  rewrite He in Hr. unfold INT_MIN, INT_MAX in *. lia.
Qed.

Lemma next_prime_size_int old :
  old * 2 ≤ INT_MAX →
  old < next_prime_size old ≤ INT_MAX
  ∧ (349 ≤ old → next_prime_size old = old * 2 - old ÷ 2).
Proof.
  intros Hhi.
  destruct (next_prime_size_cases old) as
    [H|[H|[H|[H|[H|[H|[H|[H|[H|[H1 H2]]]]]]]]]];
    try (unfold INT_MAX in *; lia).
  rewrite H2, grow_int by lia. pose proof (quot2_bounds old ltac:(lia)).
  unfold INT_MAX in *. lia.
Qed.

Lemma capacity_ok_cases r :
  capacity_ok r ↔
  r = 13 ∨ r = 17 ∨ r = 29 ∨ r = 47 ∨ r = 61 ∨ r = 97 ∨ r = 157 ∨ r = 251
  ∨ 349 ≤ r.
Proof.
  unfold capacity_ok, primes. rewrite !elem_of_cons, elem_of_nil. lia.
Qed.

Lemma capacity_ok_pos r : capacity_ok r → 13 ≤ r.
Proof. rewrite capacity_ok_cases. lia. Qed.

(** Growing leaves room for one more element under the half-full mark. *)
Lemma next_prime_size_half old :
  capacity_ok old → old ≤ INT_MAX → 0 ≤ next_prime_size old →
  old ÷ 2 + 1 ≤ next_prime_size old ÷ 2.
Proof.
  intros Hold Hhi Hpos.
  assert (old + 2 ≤ next_prime_size old ∧ 0 ≤ old) as [Hge H0].
  { rewrite capacity_ok_cases in Hold.
    destruct (next_prime_size_grows old Hhi Hpos) as (_ & _ & _ & He).
    destruct (next_prime_size_cases old) as
      [H|[H|[H|[H|[H|[H|[H|[H|[H|[H1 H2]]]]]]]]]]; try lia.
    rewrite He by done. pose proof (quot2_bounds old ltac:(lia)). lia. }
  rewrite !Z.quot_div_nonneg by lia.
  pose proof (Z.div_le_mono (old + 1 * 2) (next_prime_size old) 2) as H.
  rewrite Z.div_add in H by lia. lia.
Qed.

(** *** [resize3] *)

Lemma resize3_Done a b c n x :
  resize3 a b c n = Done x →
  0 ≤ a ∧ 0 ≤ b ∧ 0 ≤ c ∧ 0 ≤ n ∧ (a + b + c) * n ≤ INT_MAX.
Proof.
  unfold resize3.
  set (size := to_int (to_int (a + b + c) * n)).
  pose proof (to_int_range (to_int (a + b + c) * n)) as Hsize.
  fold size in Hsize.
  destruct (Z.gtb_spec (to_hash_t size) PTRDIFF_MAX) as [|Hmalloc]; [done|].
  destruct (_ && _) eqn:Hfit; [|done]. intros _.
  repeat (apply andb_prop in Hfit as [Hfit ?]).
  assert (0 ≤ size) as Hpos.
  { destruct (Z.le_gt_cases 0 size) as [|Hneg]; [done|].
    unfold to_hash_t, hash_modulus, hash_bits, PTRDIFF_MAX in Hmalloc.
    replace size with (size + 2 ^ 64 + -1 * 2 ^ 64) in Hmalloc by lia.
    rewrite Z.mod_add, Z.mod_small in Hmalloc
      by (unfold INT_MIN in Hsize; lia).
    unfold INT_MIN in Hsize. lia. }
  unfold to_hash_t, hash_modulus, hash_bits in *.
  rewrite Z.mod_small in * by (unfold INT_MAX in Hsize; lia).
  unfold INT_MAX in *. lia.
Qed.

Lemma resize3_fits a b n :
  0 ≤ a → 0 ≤ b → 0 ≤ n → (a + b + 1) * n ≤ INT_MAX →
  resize3 a b 1 n = Done (a * n, (a + b) * n).
Proof.
  intros Ha Hb Hn Hfit. unfold resize3.
  assert (n = 0 ∨ 0 < n) as [-> | Hpos] by lia.
  { rewrite !Z.mul_0_r. change (to_int 0) with 0.
    destruct (Z.leb_spec 0 a), (Z.leb_spec 0 b); try lia. done. }
  assert (a + b + 1 ≤ INT_MAX ∧ a * n ≤ INT_MAX ∧ b * n ≤ INT_MAX)
    as (? & ? & ?) by (unfold INT_MAX in *; nia).
  rewrite (to_int_small (a + b + 1)) by (unfold INT_MIN; lia).
  rewrite (to_int_small ((a + b + 1) * n)) by (unfold INT_MIN; nia).
  rewrite (to_int_small (a * n)), (to_int_small (b * n))
    by (unfold INT_MIN; nia).
  unfold to_hash_t, hash_modulus, hash_bits.
  rewrite Z.mod_small by (unfold INT_MAX in *; nia).
  destruct (Z.gtb_spec ((a + b + 1) * n) PTRDIFF_MAX) as [Hgt|_].
  { unfold PTRDIFF_MAX, INT_MAX in *. lia. }
  repeat match goal with
         | |- context [?x <=? ?y] =>
             destruct (Z.leb_spec x y); [|exfalso; nia]
         | |- context [?x =? ?y] =>
             destruct (Z.eqb_spec x y); [|exfalso; nia]
         end.
  cbn. do 2 f_equal. lia.
Qed.

(** With element sizes that are not negative, a block whose size is an
    [int] or wraps to a negative [int] never leads outside itself. *)
Lemma resize3_returns_or_aborts a b n :
  0 ≤ a → 0 ≤ b → a + b + 1 ≤ INT_MAX →
  INT_MIN ≤ (a + b + 1) * n < 2 ^ 32 →
  returns_or_aborts (resize3 a b 1 n).
Proof.
  intros Ha Hb Hs Hp.
  destruct (Z.le_gt_cases 0 n) as [Hn|Hn];
    [destruct (Z.le_gt_cases ((a + b + 1) * n) INT_MAX) as [Hfit|Hbig]|].
  - left. eexists. by apply resize3_fits.
  - right. unfold resize3.
    rewrite (to_int_small (a + b + 1)) by (unfold INT_MIN; lia).
    rewrite to_int_above by lia.
    unfold to_hash_t, hash_modulus, hash_bits.
    replace ((a + b + 1) * n - 2 ^ 32)
      with ((a + b + 1) * n - 2 ^ 32 + 2 ^ 64 + -1 * 2 ^ 64) by lia.
    rewrite Z.mod_add, Z.mod_small by (unfold INT_MAX in *; lia).
    destruct (Z.gtb_spec ((a + b + 1) * n - 2 ^ 32 + 2 ^ 64) PTRDIFF_MAX);
      [done|]. unfold PTRDIFF_MAX, INT_MAX in *. lia.
  - right. unfold resize3.
    rewrite (to_int_small (a + b + 1)) by (unfold INT_MIN; lia).
    rewrite to_int_small by (unfold INT_MAX; nia).
    unfold to_hash_t, hash_modulus, hash_bits.
    replace ((a + b + 1) * n)
      with ((a + b + 1) * n + 2 ^ 64 + -1 * 2 ^ 64) at 1 by lia.
    rewrite Z.mod_add, Z.mod_small by (unfold INT_MIN in *; nia).
    destruct (Z.gtb_spec ((a + b + 1) * n + 2 ^ 64) PTRDIFF_MAX);
      [done|]. unfold PTRDIFF_MAX, INT_MIN in *. nia.
Qed.

Section TableFacts.
Context {K V : Type} `{!Inhabited K, !Inhabited V}.
Variable hash : K → Z.
Variable compar : K → K → Z.
Variable assign_key : assign_table_elem_t K.
Variable assign_value : assign_table_elem_t V.

Local Abbreviation table := (basic_hash_table K V).
Local Abbreviation set_inner := (basic_hash_table_set_inner hash compar assign_key assign_value).
Local Abbreviation set_while := (set_inner_while hash compar assign_key assign_value).
Local Abbreviation rehash := (basic_hash_table_rehash hash compar assign_key assign_value).
Local Abbreviation set_probe := (set_probe compar assign_key assign_value).
Local Abbreviation place_new := (place_new assign_key assign_value).
Local Abbreviation replace_value := (replace_value assign_value).
Local Abbreviation get_probe := (get_probe compar).
Local Abbreviation get_inner := (basic_hash_table_get_inner hash compar assign_value).
Local Abbreviation get := (basic_hash_table_get hash compar assign_value).
Local Abbreviation remove := (basic_hash_table_remove hash compar assign_key assign_value).
Local Abbreviation next := (basic_hash_table_next assign_key assign_value).
Local Abbreviation slot_matches := (slot_matches compar).
Local Abbreviation slot_skipped := (slot_skipped compar).
Local Abbreviation slot_taken := (slot_taken compar).
Local Abbreviation set_probe_at := (set_probe_at compar assign_key assign_value).
Local Abbreviation get_hit := (get_hit assign_value).

(** *** The probe loop of [get] *)

Lemma get_probe_skip (t : table) key h i n :
  slot_skipped t key (probe_index h i (reserved t)) →
  get_probe t key h i (S n) = get_probe t key h (i + 1) n.
Proof.
  intros Hskip. simpl.
  destruct Hskip as [Hd | [Hu Hne]].
  - rewrite Hd. by rewrite !bool_decide_eq_false_2.
  - rewrite Hu. rewrite bool_decide_eq_true_2 by done.
    apply Z.eqb_neq in Hne. rewrite Hne. cbn.
    by rewrite bool_decide_eq_false_2.
Qed.

Lemma get_probe_hit (t : table) key h i n :
  slot_matches t key (probe_index h i (reserved t)) →
  get_probe t key h i (S n) = Some (probe_index h i (reserved t)).
Proof.
  intros [Hu He]. simpl.
  rewrite bool_decide_eq_true_2 by done.
  apply Z.eqb_eq in He. by rewrite He.
Qed.

Lemma get_probe_empty (t : table) key h i n :
  flag_at t (probe_index h i (reserved t)) = HASH_ELEM_EMPTY →
  get_probe t key h i (S n) = None.
Proof.
  intros He. simpl. rewrite He.
  rewrite bool_decide_eq_false_2 by done. cbn.
  by rewrite bool_decide_eq_true_2.
Qed.

(** Skipping the probes [i0 .. i0 + d - 1]. *)
Lemma get_probe_skip_many (t : table) key h (d : nat) : ∀ i0 n,
  (∀ j, i0 ≤ j < i0 + Z.of_nat d →
        slot_skipped t key (probe_index h j (reserved t))) →
  get_probe t key h i0 (d + n) = get_probe t key h (i0 + Z.of_nat d) n.
Proof.
  induction d as [|d IH]; intros i0 n Hskip.
  - cbn. by rewrite Z.add_0_r.
  - replace (S d + n)%nat with (S (d + n)) by lia.
    rewrite get_probe_skip by (apply Hskip; lia).
    rewrite IH by (intros; apply Hskip; lia).
    f_equal. lia.
Qed.

Lemma get_probe_all_skipped (t : table) key h n :
  (∀ j, 0 ≤ j < Z.of_nat n →
        slot_skipped t key (probe_index h j (reserved t))) →
  get_probe t key h 0 n = None.
Proof.
  intros Hskip. replace n with (n + 0)%nat by lia.
  by rewrite get_probe_skip_many.
Qed.

(** C6 (amended).  [get] visits the slots [probe_index (hash key) i
    reserved] for [i = 0, 1, 2, ...]: as long as the slots visited are
    tombstones or hold other keys it goes on; it reports not-found at the
    first [Empty] slot, reports the first matching [Occupied] slot, and
    reports not-found when [reserved] probes met neither.  Where [i * i]
    is an [int], the index is [(hash + i * i) mod 2 ^ 64 mod reserved],
    the sum being one of [hash_t]; it is [(hash + i * i) mod reserved]
    where that sum does not wrap around. *)
Theorem get_probes_quadratic_sequence (t : table) (key : K)
    (value_out : option V) (index_out : option Z) :
  let p i := probe_index (hash key) i (reserved t) in
  (∀ i, 0 ≤ i < reserved t →
     (∀ j, 0 ≤ j < i → slot_skipped t key (p j)) →
     (flag_at t (p i) = HASH_ELEM_EMPTY →
        get_inner t key value_out index_out = get_miss value_out index_out)
     ∧ (slot_matches t key (p i) →
        get_inner t key value_out index_out
        = get_hit t (p i) value_out index_out))
  ∧ ((∀ j, 0 ≤ j < reserved t → slot_skipped t key (p j)) →
     get_inner t key value_out index_out = get_miss value_out index_out)
  ∧ (∀ i, 0 ≤ i → i * i ≤ INT_MAX →
          p i = ((hash key + i * i) mod hash_modulus) mod reserved t
          ∧ (0 ≤ hash key → hash key + i * i < hash_modulus →
             p i = (hash key + i * i) mod reserved t)).
Proof.
  intros p. split; [|split].
  3: { intros i Hi Hii. split; [by apply probe_index_int|].
       intros. by apply probe_index_no_wrap. }
  - intros i Hi Hskip.
    assert (get_probe t key (hash key) 0 (Z.to_nat (reserved t))
            = get_probe t key (hash key) i (S (Z.to_nat (reserved t - i - 1))))
      as Hgo.
    { replace (Z.to_nat (reserved t))
        with (Z.to_nat i + S (Z.to_nat (reserved t - i - 1)))%nat by lia.
      rewrite get_probe_skip_many; [f_equal; lia|].
      intros j Hj. apply Hskip. lia. }
    unfold basic_hash_table_get_inner. rewrite Hgo. split.
    + intros He. by rewrite get_probe_empty.
    + intros Hm. by rewrite get_probe_hit.
  - intros Hskip. unfold basic_hash_table_get_inner.
    rewrite get_probe_all_skipped; [done|].
    intros j Hj. apply Hskip. lia.
Qed.

(** *** [remove] on a miss *)

(** C10.  When [remove] returns 0 the table is the one it was given:
    flags, keys, values, [load], [reserved] and the callback log are
    all unchanged, so no release callback ran, and [out] is untouched. *)
Theorem remove_miss_unchanged (t : table) (key : K) (out : option V) :
  (remove t key out).1.1 = 0 →
  remove t key out = (0, t, out)
  ∧ log (remove t key out).1.2 = log t.
Proof.
  unfold basic_hash_table_remove, basic_hash_table_get_inner.
  destruct (get_probe _ _ _ _ _) as [index|]; cbn.
  - discriminate.
  - intros _. rewrite app_nil_r. by destruct t.
Qed.

(** *** Reading a slot after a write *)

Lemma wf_index (t : table) index :
  wf t → 0 ≤ index < reserved t →
  (Z.to_nat index < length (keys t))%nat
  ∧ (Z.to_nat index < length (values t))%nat
  ∧ (Z.to_nat index < length (flags t))%nat.
Proof. intros (? & -> & -> & ->) ?. lia. Qed.

Lemma wf_probe_index (t : table) h i :
  wf t → 0 ≤ probe_index h i (reserved t) < reserved t.
Proof. intros (? & _). by apply probe_index_range. Qed.

Lemma reserved_place_new (t : table) index key value reset :
  reserved (place_new t index key value reset) = reserved t.
Proof. done. Qed.

Lemma reserved_replace_value (t : table) index value :
  reserved (replace_value t index value) = reserved t.
Proof. done. Qed.

Lemma wf_place_new (t : table) index key value reset :
  wf t → wf (place_new t index key value reset).
Proof. unfold wf. cbn. by rewrite !length_insert. Qed.

Lemma wf_replace_value (t : table) index value :
  wf t → wf (replace_value t index value).
Proof. unfold wf. cbn. by rewrite !length_insert. Qed.

Lemma wf_rehash_init (t : table) newsize :
  0 < newsize → wf (rehash_init t newsize).
Proof. unfold wf. cbn. by rewrite !length_replicate. Qed.

Lemma flag_at_place_new (t : table) index key value reset j :
  wf t → 0 ≤ index < reserved t → 0 ≤ j →
  flag_at (place_new t index key value reset) j
  = if decide (j = index) then HASH_ELEM_USED else flag_at t j.
Proof.
  intros Hwf Hi Hj. destruct (wf_index t index Hwf Hi) as (_ & _ & Hf).
  unfold flag_at. cbn. case_decide as Hij.
  - subst j. by rewrite list_lookup_total_insert_eq.
  - rewrite list_lookup_total_insert_ne; [done | lia].
Qed.

Lemma key_at_place_new (t : table) index key value reset j :
  wf t → 0 ≤ index < reserved t → 0 ≤ j →
  key_at (place_new t index key value reset) j
  = if decide (j = index)
    then assign_key (key_at t index) (Some key)
           (if reset then Some key else None)
    else key_at t j.
Proof.
  intros Hwf Hi Hj. destruct (wf_index t index Hwf Hi) as (Hk & _ & _).
  unfold key_at. cbn. case_decide as Hij.
  - subst j. by rewrite list_lookup_total_insert_eq.
  - rewrite list_lookup_total_insert_ne; [done | lia].
Qed.

Lemma value_at_place_new (t : table) index key value reset j :
  wf t → 0 ≤ index < reserved t → 0 ≤ j →
  value_at (place_new t index key value reset) j
  = if decide (j = index)
    then assign_value (value_at t index) (Some value)
           (if reset then Some value else None)
    else value_at t j.
Proof.
  intros Hwf Hi Hj. destruct (wf_index t index Hwf Hi) as (_ & Hv & _).
  unfold value_at. cbn. case_decide as Hij.
  - subst j. by rewrite list_lookup_total_insert_eq.
  - rewrite list_lookup_total_insert_ne; [done | lia].
Qed.

Lemma flag_at_replace_value (t : table) index value j :
  wf t → 0 ≤ index < reserved t → 0 ≤ j →
  flag_at (replace_value t index value) j
  = if decide (j = index) then HASH_ELEM_USED else flag_at t j.
Proof.
  intros Hwf Hi Hj. destruct (wf_index t index Hwf Hi) as (_ & _ & Hf).
  unfold flag_at. cbn. case_decide as Hij.
  - subst j. by rewrite list_lookup_total_insert_eq.
  - rewrite list_lookup_total_insert_ne; [done | lia].
Qed.

Lemma key_at_replace_value (t : table) index value j :
  key_at (replace_value t index value) j = key_at t j.
Proof. done. Qed.

Lemma value_at_replace_value (t : table) index value j :
  wf t → 0 ≤ index < reserved t → 0 ≤ j →
  value_at (replace_value t index value) j
  = if decide (j = index)
    then assign_value (value_at t index) (Some value)
           (Some (value_at t index))
    else value_at t j.
Proof.
  intros Hwf Hi Hj. destruct (wf_index t index Hwf Hi) as (_ & Hv & _).
  unfold value_at. cbn. case_decide as Hij.
  - subst j. by rewrite list_lookup_total_insert_eq.
  - rewrite list_lookup_total_insert_ne; [done | lia].
Qed.

(** *** The probe loop of [set] *)

Lemma set_probe_step (t : table) key value reset h i n :
  set_probe t key value reset h i (S n)
  = let index := probe_index h i (reserved t) in
    if bool_decide (flag_at t index = HASH_ELEM_EMPTY)
       || bool_decide (flag_at t index = HASH_ELEM_DELETED)
    then Some (1, place_new t index key value reset)
    else if compar key (key_at t index) =? 0
    then Some (0, replace_value t index value)
    else set_probe t key value reset h (i + 1) n.
Proof. done. Qed.

Lemma set_probe_taken (t : table) key value reset h i n :
  slot_taken t key (probe_index h i (reserved t)) →
  set_probe t key value reset h i (S n)
  = set_probe t key value reset h (i + 1) n.
Proof.
  intros [Hu Hne]. rewrite set_probe_step. cbn zeta. rewrite Hu.
  rewrite !bool_decide_eq_false_2 by done. cbn.
  apply Z.eqb_neq in Hne. by rewrite Hne.
Qed.

Lemma set_probe_free (t : table) key value reset h i n :
  flag_at t (probe_index h i (reserved t)) ≠ HASH_ELEM_USED →
  set_probe t key value reset h i (S n)
  = Some (1, place_new t (probe_index h i (reserved t)) key value reset).
Proof.
  intros Hu. rewrite set_probe_step. cbn zeta.
  destruct (flag_at t _); [| done |];
    by rewrite ?bool_decide_eq_true_2, ?bool_decide_eq_false_2 by done.
Qed.

Lemma set_probe_match (t : table) key value reset h i n :
  slot_matches t key (probe_index h i (reserved t)) →
  set_probe t key value reset h i (S n)
  = Some (0, replace_value t (probe_index h i (reserved t)) value).
Proof.
  intros [Hu He]. rewrite set_probe_step. cbn zeta. rewrite Hu.
  rewrite !bool_decide_eq_false_2 by done. cbn.
  apply Z.eqb_eq in He. by rewrite He.
Qed.

Lemma slot_cases (t : table) key index :
  flag_at t index ≠ HASH_ELEM_USED
  ∨ slot_matches t key index ∨ slot_taken t key index.
Proof.
  unfold slot_matches, slot_taken.
  destruct (decide (flag_at t index = HASH_ELEM_USED)); [|by left].
  destruct (decide (compar key (key_at t index) = 0)); auto.
Qed.

Lemma set_probe_taken_many (t : table) key value reset h (d : nat) :
  ∀ i0 n,
  (∀ j, i0 ≤ j < i0 + Z.of_nat d →
        slot_taken t key (probe_index h j (reserved t))) →
  set_probe t key value reset h i0 (d + n)
  = set_probe t key value reset h (i0 + Z.of_nat d) n.
Proof.
  induction d as [|d IH]; intros i0 n Htaken.
  - cbn. by rewrite Z.add_0_r.
  - replace (S d + n)%nat with (S (d + n)) by lia.
    rewrite set_probe_taken by (apply Htaken; lia).
    rewrite IH by (intros; apply Htaken; lia).
    f_equal. lia.
Qed.

Lemma set_probe_Some (t : table) key value reset h n : ∀ i0 r t',
  set_probe t key value reset h i0 n = Some (r, t') →
  set_probe_at t key value reset h i0 n r t'.
Proof.
  induction n as [|n IH]; intros i0 r t' Hp; [done|].
  destruct (slot_cases t key (probe_index h i0 (reserved t)))
    as [Hfree | [Hm | Htk]].
  - rewrite set_probe_free in Hp by done. injection Hp as <- <-.
    apply set_probe_at_intro with (d := 0%nat); [lia | lia |].
    rewrite Z.add_0_r. by left.
  - rewrite set_probe_match in Hp by done. injection Hp as <- <-.
    apply set_probe_at_intro with (d := 0%nat); [lia | lia |].
    rewrite Z.add_0_r. by right.
  - rewrite set_probe_taken in Hp by done.
    destruct (IH _ _ _ Hp) as [d Hd Htaken index Hat].
    apply set_probe_at_intro with (d := S d); [lia | |].
    + intros j Hj. destruct (decide (j = i0)) as [->|]; [done|].
      apply Htaken. lia.
    + replace (i0 + Z.of_nat (S d)) with (i0 + 1 + Z.of_nat d) by lia.
      done.
Qed.

Lemma set_probe_None (t : table) key value reset h n : ∀ i0,
  set_probe t key value reset h i0 n = None →
  ∀ j, i0 ≤ j < i0 + Z.of_nat n →
       slot_taken t key (probe_index h j (reserved t)).
Proof.
  induction n as [|n IH]; intros i0 Hp j Hj; [lia|].
  destruct (slot_cases t key (probe_index h i0 (reserved t)))
    as [Hfree | [Hm | Htk]].
  - by rewrite set_probe_free in Hp.
  - by rewrite set_probe_match in Hp.
  - rewrite set_probe_taken in Hp by done.
    destruct (decide (j = i0)) as [->|]; [done|].
    apply (IH (i0 + 1)); [done | lia].
Qed.

Lemma set_probe_wf (t : table) key value reset h i n r t' :
  wf t → set_probe t key value reset h i n = Some (r, t') →
  wf t' ∧ reserved t' = reserved t.
Proof.
  intros Hwf Hp. destruct (set_probe_Some _ _ _ _ _ _ _ _ _ Hp)
    as [d _ _ index [(_ & _ & ->) | (_ & _ & ->)]].
  - split; [by apply wf_place_new | done].
  - split; [by apply wf_replace_value | done].
Qed.

(** *** Unfolding one level of [set_inner], [while (1)] and [rehash] *)

Lemma set_inner_S fuel (t : table) key value reset :
  set_inner (S fuel) t key value reset
  = (t1 ← (if load t >? reserved t ÷ 2
           then if reset then AssertionFailed
                else rehash fuel t (reserved t) (next_prime_size (reserved t))
           else Done t);
     set_while fuel t1 key value reset).
Proof. done. Qed.

Lemma set_while_S fuel (t : table) key value reset :
  set_while (S fuel) t key value reset
  = match set_probe t key value reset (hash key) 0 (Z.to_nat (reserved t)) with
    | Some r => Done r
    | None =>
        t' ← rehash fuel t (reserved t) (next_prime_size (reserved t));
        set_while fuel t' key value reset
    end.
Proof. done. Qed.

Lemma rehash_S fuel (t : table) oldsize newsize :
  rehash (S fuel) t oldsize newsize
  = (resize3 (key_size t) (value_size t) 1 newsize ;;
     rehash_loop (λ t k v, set_inner fuel t k v true)
       (keys t) (values t) (flags t) (Z.to_nat oldsize)
       (rehash_init t newsize)).
Proof. done. Qed.

(** A [rehash] that returns was given a block of [int] size. *)
Lemma rehash_Done fuel (t : table) oldsize newsize t' :
  rehash (S fuel) t oldsize newsize = Done t' →
  (0 ≤ key_size t ∧ 0 ≤ value_size t ∧ 0 ≤ newsize
   ∧ (key_size t + value_size t + 1) * newsize ≤ INT_MAX)
  ∧ rehash_loop (λ t k v, set_inner fuel t k v true)
      (keys t) (values t) (flags t) (Z.to_nat oldsize)
      (rehash_init t newsize) = Done t'.
Proof.
  rewrite rehash_S. intros (x & Hres & Hl)%bind_Done. split; [|done].
  apply resize3_Done in Hres. lia.
Qed.

Lemma rehash_fits fuel (t : table) oldsize newsize :
  0 ≤ key_size t → 0 ≤ value_size t → 0 ≤ newsize →
  (key_size t + value_size t + 1) * newsize ≤ INT_MAX →
  rehash (S fuel) t oldsize newsize
  = rehash_loop (λ t k v, set_inner fuel t k v true)
      (keys t) (values t) (flags t) (Z.to_nat oldsize)
      (rehash_init t newsize).
Proof. intros. rewrite rehash_S. by rewrite resize3_fits. Qed.

(** An invariant of the inserted-into table is an invariant of the
    loop of [rehash]. *)
Lemma rehash_loop_inv (I : table → Prop)
    (ins : table → K → V → outcome (Z * table)) :
  (∀ t k v r t', I t → ins t k v = Done (r, t') → I t') →
  ∀ n old_k old_v old_f t t',
    I t → rehash_loop ins old_k old_v old_f n t = Done t' → I t'.
Proof.
  intros Hins. induction n as [|n IH]; intros old_k old_v old_f t t' Ht Hl.
  - cbn in Hl. by injection Hl as <-.
  - destruct old_k as [|k old_k], old_v as [|v old_v], old_f as [|f old_f];
      cbn in Hl; try by injection Hl as <-.
    apply bind_Done in Hl as (t1 & H1 & Hl).
    apply (IH _ _ _ _ _) in Hl; [done|].
    destruct (_ =? _).
    + by injection H1 as <-.
    + apply bind_Done in H1 as ([r t2] & H1 & [= <-]). by eapply Hins.
Qed.

Lemma sized_rehash_init (t : table) newsize : sized (rehash_init t newsize).
Proof. unfold sized. cbn. by rewrite !length_replicate. Qed.

(** The loop of [set] returns from tables that have cells only. *)
Lemma sized_wf (t : table) key value reset h r t' :
  sized t →
  set_probe t key value reset h 0 (Z.to_nat (reserved t)) = Some (r, t') →
  wf t.
Proof.
  intros Hs Hp. split; [|done].
  destruct (Z.to_nat (reserved t)) eqn:E; [done | lia].
Qed.

(** [set_inner] returns from the probe loop run on a well-formed table,
    which is at least as large as the one it was given when that had an
    [int] capacity; and [rehash] leaves a table of at least the
    requested size, with an [int] capacity. *)
Lemma set_inner_structure fuel :
  (∀ (t : table) key value reset r t',
     sized t → set_inner fuel t key value reset = Done (r, t') →
     ∃ t1, wf t1
           ∧ (reserved t ≤ INT_MAX → reserved t ≤ reserved t1 ≤ INT_MAX)
           ∧ set_probe t1 key value reset (hash key) 0
               (Z.to_nat (reserved t1)) = Some (r, t'))
  ∧ (∀ (t : table) key value reset r t',
     sized t → set_while fuel t key value reset = Done (r, t') →
     ∃ t1, wf t1
           ∧ (reserved t ≤ INT_MAX → reserved t ≤ reserved t1 ≤ INT_MAX)
           ∧ set_probe t1 key value reset (hash key) 0
               (Z.to_nat (reserved t1)) = Some (r, t'))
  ∧ (∀ (t : table) oldsize newsize t',
     rehash fuel t oldsize newsize = Done t' →
     sized t' ∧ newsize ≤ reserved t' ≤ INT_MAX).
Proof.
  induction fuel as [|fuel (IHset & IHwhile & IHrehash)]; [done|].
  assert (∀ (t t1 : table),
            rehash fuel t (reserved t) (next_prime_size (reserved t))
              = Done t1 →
            sized t1
            ∧ (reserved t ≤ INT_MAX → reserved t ≤ reserved t1 ≤ INT_MAX))
    as Hgrow.
  { intros t t1 H1. pose proof (IHrehash _ _ _ _ H1) as [Hs1 Hle1].
    split; [done|]. intros Hint.
    destruct (next_prime_size_grows (reserved t) Hint) as (? & _); [|lia].
    destruct fuel; [done|]. apply rehash_Done in H1 as [? _]. lia. }
  split_and!.
  - intros t key value reset r t' Hwf Hs. rewrite set_inner_S in Hs.
    apply bind_Done in Hs as (t1 & H1 & Hs).
    assert (sized t1
            ∧ (reserved t ≤ INT_MAX → reserved t ≤ reserved t1 ≤ INT_MAX))
      as [Hwf1 Hle].
    { destruct (_ >? _).
      - destruct reset; [done|]. by apply Hgrow.
      - injection H1 as <-. split; [done | lia]. }
    apply IHwhile in Hs as (t2 & ? & ? & ?); [|done].
    exists t2. split_and!; [done | lia | done].
  - intros t key value reset r t' Hwf Hs. rewrite set_while_S in Hs.
    destruct (set_probe _ _ _ _ _ _ _) as [[r1 t1]|] eqn:Hp.
    + injection Hs as -> ->. exists t.
      split_and!; [by eapply sized_wf | lia | done].
    + apply bind_Done in Hs as (t1 & H1 & Hs).
      apply Hgrow in H1 as [? ?].
      apply IHwhile in Hs as (t2 & ? & ? & ?); [|done].
      exists t2. split_and!; [done | lia | done].
  - intros t oldsize newsize t' Hr. apply rehash_Done in Hr as [Hfit Hr].
    eapply (rehash_loop_inv
              (λ t, sized t ∧ newsize ≤ reserved t ≤ INT_MAX)) in Hr;
      [done | | ].
    + intros t0 k v r t0' [Hwf0 Hle0] Hins.
      apply IHset in Hins as (t1 & Hwf1 & Hle1 & Hp); [|done].
      apply set_probe_wf in Hp as [[_ ?] ?]; [|done].
      split; [done | lia].
    + split; [apply sized_rehash_init | cbn; nia].
Qed.

Lemma set_inner_wf fuel (t : table) key value reset r t' :
  wf t → set_inner fuel t key value reset = Done (r, t') →
  wf t' ∧ (reserved t ≤ INT_MAX → reserved t ≤ reserved t' ≤ INT_MAX).
Proof.
  intros [_ Hwf] Hs.
  apply (set_inner_structure fuel) in Hs as (t1 & Hwf1 & Hle & Hp); [|done].
  apply set_probe_wf in Hp as [? ?]; [|done]. split; [done | lia].
Qed.

(** The capacity a [rehash] of a table of [int] capacity to the next
    size was given, and the table it leaves. *)
Lemma rehash_next_int fuel (t t1 : table) oldsize :
  reserved t ≤ INT_MAX →
  rehash fuel t oldsize (next_prime_size (reserved t)) = Done t1 →
  reserved t < next_prime_size (reserved t) ≤ INT_MAX
  ∧ sized t1 ∧ next_prime_size (reserved t) ≤ reserved t1 ≤ INT_MAX.
Proof.
  intros Hint Hr.
  pose proof (proj2 (proj2 (set_inner_structure fuel)) _ _ _ _ Hr) as [? ?].
  destruct fuel; [done|]. apply rehash_Done in Hr as [(_ & _ & Hpos & _) _].
  destruct (next_prime_size_grows (reserved t) Hint Hpos) as (? & _).
  split_and!; [lia | lia | done | lia | lia].
Qed.

Lemma new_wf key_size0 value_size0 fuel (t : table) :
  basic_hash_table_new hash compar assign_key assign_value
    key_size0 value_size0 fuel = Done t →
  t = rehash_init (mk_table key_size0 value_size0 0 0 [] [] [] []) 13
  ∧ wf t ∧ reserved t = 13 ∧ load t = 0
  ∧ 0 ≤ key_size0 ∧ 0 ≤ value_size0
  ∧ (key_size0 + value_size0 + 1) * 13 ≤ INT_MAX.
Proof.
  destruct fuel as [|fuel]; [done|]. unfold basic_hash_table_new.
  intros [Hfit Hl]%rehash_Done. cbn in Hl, Hfit. injection Hl as <-.
  split_and!; try done; try lia.
Qed.

Lemma remove_wf (t : table) key out r t' out' :
  wf t → remove t key out = (r, t', out') →
  wf t' ∧ reserved t' = reserved t ∧ load t' = load t.
Proof.
  unfold basic_hash_table_remove. intros Hwf.
  destruct (_ =? _); intros [= <- <- <-]; [done|].
  unfold wf. cbn. by rewrite !length_insert.
Qed.

Lemma reachable_wf (t : table) :
  reachable hash compar assign_key assign_value t → wf t.
Proof.
  induction 1 as [ks vs fuel t Hn | fuel t key value r t' _ IH Hs
                 | t key out r t' out' _ IH Hr].
  - by apply new_wf in Hn as (_ & ? & _).
  - by apply set_inner_wf in Hs as [? _].
  - by apply remove_wf in Hr as [? _].
Qed.

(** *** Counting used slots *)

Lemma count_insert (f x : elem_flags) (l : list elem_flags) : ∀ i,
  (i < length l)%nat →
  (length (filter (λ g, g = f) (<[i:=x]> l))
   + (if decide (l !!! i = f) then 1 else 0)
   = length (filter (λ g, g = f) l)
     + (if decide (x = f) then 1 else 0))%nat.
Proof.
  induction l as [|a l IH]; intros i Hi; [cbn in Hi; lia|].
  destruct i as [|i].
  - change (<[0%nat:=x]> (a :: l)) with (x :: l).
    change ((a :: l) !!! 0%nat) with a.
    rewrite !filter_cons. repeat case_decide; cbn [length]; lia.
  - change (<[S i:=x]> (a :: l)) with (a :: <[i:=x]> l).
    change ((a :: l) !!! S i) with (l !!! i).
    rewrite !filter_cons. cbn in Hi.
    specialize (IH i ltac:(lia)).
    repeat case_decide; cbn [length]; lia.
Qed.

Lemma count_take_le (f : elem_flags) (l : list elem_flags) n :
  (length (filter (λ g, g = f) (take n l))
   ≤ length (filter (λ g, g = f) l))%nat.
Proof.
  revert n. induction l as [|a l IH]; intros [|n]; try (cbn; lia).
  change (take (S n) (a :: l)) with (a :: take n l).
  rewrite !filter_cons. specialize (IH n). case_decide; cbn [length]; lia.
Qed.

Lemma used_count_range (t : table) : wf t → 0 ≤ used_count t ≤ reserved t.
Proof.
  intros (? & _ & _ & Hf). unfold used_count, count_flag.
  pose proof (length_filter (λ g, g = HASH_ELEM_USED) (flags t)). lia.
Qed.

Lemma used_count_place_new (t : table) index key value reset :
  wf t → 0 ≤ index < reserved t →
  flag_at t index ≠ HASH_ELEM_USED →
  used_count (place_new t index key value reset) = used_count t + 1.
Proof.
  intros Hwf Hi Hf. destruct (wf_index t index Hwf Hi) as (_ & _ & Hlen).
  unfold used_count, count_flag, flag_at in *. cbn.
  pose proof (count_insert HASH_ELEM_USED HASH_ELEM_USED (flags t)
                (Z.to_nat index) Hlen) as Hc.
  rewrite decide_False, decide_True in Hc by done. lia.
Qed.

Lemma used_count_replace_value (t : table) index value :
  wf t → 0 ≤ index < reserved t →
  flag_at t index = HASH_ELEM_USED →
  used_count (replace_value t index value) = used_count t.
Proof.
  intros Hwf Hi Hf. destruct (wf_index t index Hwf Hi) as (_ & _ & Hlen).
  unfold used_count, count_flag, flag_at in *. cbn.
  pose proof (count_insert HASH_ELEM_USED HASH_ELEM_USED (flags t)
                (Z.to_nat index) Hlen) as Hc.
  rewrite !decide_True in Hc by done. lia.
Qed.

Lemma used_count_rehash_init (t : table) newsize :
  used_count (rehash_init t newsize) = 0.
Proof.
  unfold used_count, count_flag. cbn.
  induction (Z.to_nat newsize) as [|n IH]; [done|].
  change (replicate (S n) HASH_ELEM_EMPTY)
    with (HASH_ELEM_EMPTY :: replicate n HASH_ELEM_EMPTY).
  by rewrite filter_cons, decide_False.
Qed.

(** The flag test of [rehash], [*old_f & HASH_ELEM_USED]. *)
Lemma flag_and_used (f : elem_flags) :
  (Z.land (flag_value f) (flag_value HASH_ELEM_USED) =? 0)
  = negb (bool_decide (f = HASH_ELEM_USED)).
Proof. by destruct f. Qed.

(** Each pass of the loop of [rehash] over a used slot calls [ins]
    once: [load] grows by at most the number of used slots visited. *)
Lemma rehash_loop_load (I : table → Prop)
    (ins : table → K → V → outcome (Z * table)) :
  (∀ t k v r t', I t → ins t k v = Done (r, t') →
                 I t' ∧ load t' ≤ load t + 1) →
  ∀ n old_k old_v old_f t t',
    I t → rehash_loop ins old_k old_v old_f n t = Done t' →
    I t' ∧ load t' ≤ load t
             + Z.of_nat (length (filter (λ g, g = HASH_ELEM_USED)
                                   (take n old_f))).
Proof.
  intros Hins. induction n as [|n IH]; intros old_k old_v old_f t t' Ht Hl.
  - cbn in Hl. injection Hl as <-. split; [done | cbn; lia].
  - destruct old_k as [|k old_k], old_v as [|v old_v], old_f as [|f old_f];
      cbn in Hl; try (injection Hl as <-; split; [done | cbn; lia]).
    apply bind_Done in Hl as (t1 & H1 & Hl).
    rewrite flag_and_used in H1. cbn [take]. rewrite filter_cons.
    destruct (decide (f = HASH_ELEM_USED)) as [Hf|Hf].
    + rewrite bool_decide_eq_true_2 in H1 by done. cbn in H1.
      apply bind_Done in H1 as ([r t2] & H1 & [= <-]).
      apply Hins in H1 as [Ht2 Hle]; [|done].
      cbn [snd] in Hl.
      apply (IH _ _ _ _ _ Ht2) in Hl as [? ?]. split; [done|].
      cbn [length]. lia.
    + rewrite bool_decide_eq_false_2 in H1 by done. cbn in H1.
      injection H1 as <-. by apply (IH _ _ _ _ _ Ht) in Hl.
Qed.

Lemma quot2_mono a b : 0 ≤ a ≤ b → a ÷ 2 ≤ b ÷ 2.
Proof.
  intros H. rewrite !Z.quot_div_nonneg by lia. apply Z.div_le_mono; lia.
Qed.

Lemma set_probe_counted (t : table) key value reset h n r t' :
  counted t → set_probe t key value reset h 0 n = Some (r, t') →
  counted t' ∧ load t' ≤ load t + 1 ∧ reserved t' = reserved t.
Proof.
  intros (Hwf & Hcap & Hused & Hfit) Hp.
  destruct (set_probe_Some _ _ _ _ _ _ _ _ _ Hp)
    as [d _ _ index [(Hf & _ & ->) | ([Hu _] & _ & ->)]];
    pose proof (wf_probe_index t h (0 + Z.of_nat d) Hwf) as Hidx;
    fold index in Hidx.
  - split_and!; [split_and! | cbn; lia | done];
      [by apply wf_place_new | done | | done].
    rewrite used_count_place_new by done. cbn. lia.
  - split_and!; [split_and! | cbn; lia | done];
      [by apply wf_replace_value | done | | done].
    rewrite used_count_replace_value by done. cbn. lia.
Qed.

(** The capacity of a table of the invariant is an [int]. *)
Lemma counted_int (t : table) : counted t → 13 ≤ reserved t ≤ INT_MAX.
Proof.
  intros (Hwf & Hcap & _ & Hk & Hv & Hfit).
  pose proof (capacity_ok_pos _ Hcap). split; [done | nia].
Qed.

(** The capacity a [rehash] of such a table to the next size was
    given, when it returns. *)
Lemma rehash_next_grows fuel (t t1 : table) :
  counted t →
  rehash fuel t (reserved t) (next_prime_size (reserved t)) = Done t1 →
  reserved t < next_prime_size (reserved t) ≤ INT_MAX
  ∧ capacity_ok (next_prime_size (reserved t))
  ∧ reserved t ÷ 2 + 1 ≤ next_prime_size (reserved t) ÷ 2.
Proof.
  intros Hc Hr. pose proof Hc as (_ & Hcap & _).
  pose proof (counted_int t Hc) as Hint.
  destruct fuel; [done|]. apply rehash_Done in Hr as [(_ & _ & Hpos & _) _].
  destruct (next_prime_size_grows (reserved t)) as (? & ? & _); [lia | done |].
  split_and!; try done; try lia.
  apply next_prime_size_half; [done | lia | done].
Qed.

Lemma set_inner_counted fuel :
  (∀ (t : table) key value reset r t',
     counted t → set_inner fuel t key value reset = Done (r, t') →
     counted t' ∧ load t' ≤ load t + 1 ∧ reserved t ≤ reserved t'
     ∧ (load t ≤ reserved t ÷ 2 + 1 → load t' ≤ reserved t' ÷ 2 + 1))
  ∧ (∀ (t : table) key value reset r t',
     counted t → set_while fuel t key value reset = Done (r, t') →
     counted t' ∧ load t' ≤ load t + 1 ∧ reserved t ≤ reserved t'
     ∧ (load t ≤ reserved t ÷ 2 → load t' ≤ reserved t' ÷ 2 + 1))
  ∧ (∀ (t : table) oldsize newsize t',
     capacity_ok newsize →
     rehash fuel t oldsize newsize = Done t' →
     counted t' ∧ load t' ≤ used_count t ∧ newsize ≤ reserved t').
Proof.
  induction fuel as [|fuel (IHset & IHwhile & IHrehash)]; [done|].
  split_and!.
  - intros t key value reset r t' Hc Hs. rewrite set_inner_S in Hs.
    apply bind_Done in Hs as (t1 & H1 & Hs).
    pose proof Hc as (Hwf & Hcap & Hused & Hfit).
    pose proof (capacity_ok_pos _ Hcap).
    destruct (Z.gtb_spec (load t) (reserved t ÷ 2)) as [Hgt|Hle].
    + destruct reset; [done|].
      destruct (rehash_next_grows _ _ _ Hc H1) as (Hnext & Hcapn & Hhalfn).
      apply IHrehash in H1 as (Hc1 & Hl1 & Hr1); [|done].
      apply IHwhile in Hs as (Hc' & Hl' & Hr' & Hhalf); [|done].
      split_and!; [done | lia | lia |].
      intros Hpre. apply Hhalf.
      pose proof (quot2_mono (next_prime_size (reserved t)) (reserved t1)).
      lia.
    + injection H1 as <-.
      apply IHwhile in Hs as (Hc' & Hl' & Hr' & Hhalf); [|done].
      split_and!; [done | lia | lia |]. intros _. by apply Hhalf.
  - intros t key value reset r t' Hc Hs. rewrite set_while_S in Hs.
    pose proof Hc as (Hwf & Hcap & Hused & Hfit).
    pose proof (capacity_ok_pos _ Hcap).
    destruct (set_probe _ _ _ _ _ _ _) as [[r1 t1]|] eqn:Hp.
    + injection Hs as -> ->.
      apply set_probe_counted in Hp as (? & ? & Hres); [|done].
      rewrite Hres. split_and!; [done | lia | lia | lia].
    + apply bind_Done in Hs as (t1 & H1 & Hs).
      destruct (rehash_next_grows _ _ _ Hc H1) as (Hnext & Hcapn & Hhalfn).
      apply IHrehash in H1 as (Hc1 & Hl1 & Hr1); [|done].
      apply IHwhile in Hs as (Hc' & Hl' & Hr' & Hhalf); [|done].
      split_and!; [done | lia | lia |].
      intros Hpre. apply Hhalf.
      pose proof (quot2_mono (reserved t) (reserved t1)). lia.
  - intros t oldsize newsize t' Hnew Hr.
    apply rehash_Done in Hr as [(Hk & Hv & _ & Hfit) Hr].
    pose proof (capacity_ok_pos _ Hnew).
    apply (rehash_loop_load (λ t, counted t ∧ newsize ≤ reserved t)) in Hr.
    + destruct Hr as [[Hc Hle] Hload]. split_and!; [done | | done].
      cbn in Hload.
      pose proof (count_take_le HASH_ELEM_USED (flags t) (Z.to_nat oldsize)).
      unfold used_count, count_flag. lia.
    + intros t0 k v r t0' [Hc0 Hle0] Hins.
      apply IHset in Hins as (? & ? & ? & _); [|done].
      split; [split; [done | lia] | done].
    + split; [|cbn; lia].
      split_and!; [apply wf_rehash_init; lia | done | | done].
      rewrite used_count_rehash_init. cbn. lia.
Qed.

(** [set] keeps the element sizes of the table. *)
Lemma set_inner_sizes fuel :
  (∀ (t : table) key value reset r t',
     set_inner fuel t key value reset = Done (r, t') →
     key_size t' = key_size t ∧ value_size t' = value_size t)
  ∧ (∀ (t : table) key value reset r t',
     set_while fuel t key value reset = Done (r, t') →
     key_size t' = key_size t ∧ value_size t' = value_size t)
  ∧ (∀ (t : table) oldsize newsize t',
     rehash fuel t oldsize newsize = Done t' →
     key_size t' = key_size t ∧ value_size t' = value_size t).
Proof.
  induction fuel as [|fuel (IHset & IHwhile & IHrehash)]; [done|].
  split_and!.
  - intros t key value reset r t' Hs. rewrite set_inner_S in Hs.
    apply bind_Done in Hs as (t1 & H1 & Hs).
    apply IHwhile in Hs as [-> ->].
    destruct (_ >? _); [|by injection H1 as <-].
    destruct reset; [done|]. by apply IHrehash in H1.
  - intros t key value reset r t' Hs. rewrite set_while_S in Hs.
    destruct (set_probe _ _ _ _ _ _ _) as [[r1 t1]|] eqn:Hp.
    + injection Hs as -> ->.
      by destruct (set_probe_Some _ _ _ _ _ _ _ _ _ Hp)
        as [d _ _ index [(_ & _ & ->) | (_ & _ & ->)]].
    + apply bind_Done in Hs as (t1 & H1 & Hs).
      apply IHwhile in Hs as [-> ->]. by apply IHrehash in H1.
  - intros t oldsize newsize t' Hr. apply rehash_Done in Hr as [_ Hr].
    by apply (rehash_loop_inv
                (λ t0, key_size t0 = key_size t
                       ∧ value_size t0 = value_size t)) in Hr;
      [| intros t0 k v r t0' [<- <-] Hins; by apply IHset in Hins |].
Qed.

Lemma remove_counted (t : table) key out r t' out' :
  counted t → remove t key out = (r, t', out') →
  counted t' ∧ reserved t' = reserved t ∧ load t' = load t
  ∧ key_size t' = key_size t ∧ value_size t' = value_size t
  ∧ used_count t' ≤ used_count t.
Proof.
  intros (Hwf & Hcap & Hused & Hfit) Hr.
  unfold basic_hash_table_remove in Hr.
  destruct (get_inner _ _ _ _) as [fnd vo io calls] eqn:Hg. cbn in Hr.
  destruct (fnd =? 0) eqn:Hf; injection Hr as <- <- <-.
  { cbn. by split_and!. }
  match goal with |- counted ?t2 ∧ _ => set (t' := t2) end.
  assert (flags t' = <[Z.to_nat (default inhabitant io) := HASH_ELEM_DELETED]>
                       (flags t)) as Hfl by done.
  assert (used_count t' ≤ used_count t) as Hle.
  { unfold used_count, count_flag. rewrite Hfl.
    destruct (decide (Z.to_nat (default inhabitant io) < length (flags t))%nat)
      as [Hlt|Hge].
    - pose proof (count_insert HASH_ELEM_USED HASH_ELEM_DELETED (flags t)
                    (Z.to_nat (default inhabitant io)) Hlt) as Hc.
      rewrite (decide_False (P := HASH_ELEM_DELETED = _)) in Hc by done.
      case_decide; lia.
    - rewrite list_insert_ge by lia. lia. }
  split; [|by split_and!].
  split_and!; [|done | change (load t') with (load t); lia | done].
  unfold wf. cbn. rewrite !length_insert. apply Hwf.
Qed.

Lemma reachable_counted (t : table) :
  reachable hash compar assign_key assign_value t →
  counted t ∧ load t ≤ reserved t ÷ 2 + 1.
Proof.
  induction 1 as [ks vs fuel t Hn | fuel t key value r t' _ [IHc IHl] Hs
                 | t key out r t' out' Hreach [IHc IHl] Hr].
  - apply new_wf in Hn as (-> & Hwf & Hres & Hload & Hk & Hv & Hfit).
    split; [|done]. split_and!; [done | | done |].
    + apply capacity_ok_cases. cbn. lia.
    + split_and!; cbn; lia.
  - apply (set_inner_counted fuel) in Hs as (? & _ & _ & Hhalf); [|done].
    split; [done | by apply Hhalf].
  - apply remove_counted in Hr as (? & -> & -> & _); done.
Qed.

(** *** [get] after [set] *)

Section StoringPolicy.
Hypothesis compar_refl : ∀ k, compar k k = 0.
Hypothesis assign_key_stores :
  ∀ cell k old, assign_key cell (Some k) old = k.
Hypothesis assign_value_stores :
  ∀ cell v old, assign_value cell (Some v) old = v.

(** The slot the loop of [set] wrote is the slot [get] reports. *)
Lemma get_probe_after_set_probe (t : table) key value reset h n r t' :
  wf t →
  set_probe t key value reset h 0 n = Some (r, t') →
  ∃ index, 0 ≤ index < reserved t
    ∧ get_probe t' key h 0 n = Some index
    ∧ value_at t' index = value.
Proof.
  intros Hwf Hp. pose proof (set_probe_wf _ _ _ _ _ _ _ _ _ Hwf Hp) as [_ Hres].
  destruct (set_probe_Some _ _ _ _ _ _ _ _ _ Hp) as [d Hd Htaken index Hat].
  pose proof (wf_probe_index t h (0 + Z.of_nat d) Hwf) as Hidx.
  fold index in Hidx.
  assert (∀ j, 0 ≤ j < 0 + Z.of_nat d →
            probe_index h j (reserved t) ≠ index) as Hne.
  { intros j Hj Heq. destruct (Htaken j Hj) as [Hu Hc].
    rewrite Heq in Hu, Hc.
    destruct Hat as [(Hf & _) | ([_ Hm] & _)]; done. }
  exists index. split; [done|].
  replace n with (d + S (n - d - 1))%nat by lia.
  assert (∀ j, 0 ≤ j < 0 + Z.of_nat d →
            slot_skipped t' key (probe_index h j (reserved t'))) as Hskip.
  { intros j Hj. rewrite Hres. right.
    destruct (Htaken j Hj) as [Hu Hc].
    pose proof (wf_probe_index t h j Hwf).
    destruct Hat as [(_ & _ & ->) | (_ & _ & ->)].
    - rewrite flag_at_place_new, key_at_place_new by (done || lia).
      by rewrite !decide_False by (by apply Hne).
    - rewrite flag_at_replace_value, key_at_replace_value by (done || lia).
      by rewrite !decide_False by (by apply Hne). }
  rewrite get_probe_skip_many by done.
  destruct Hat as [(Hf & -> & ->) | ([Hu Hm] & -> & ->)].
  - split.
    + apply (get_probe_hit (place_new t index key value reset)). split.
      * rewrite reserved_place_new. fold index.
        rewrite flag_at_place_new by (done || lia). by rewrite decide_True.
      * rewrite reserved_place_new. fold index.
        rewrite key_at_place_new by (done || lia).
        rewrite decide_True by done.
        by rewrite assign_key_stores.
    + rewrite value_at_place_new by (done || lia).
      rewrite decide_True by done. apply assign_value_stores.
  - split.
    + apply (get_probe_hit (replace_value t index value)). split.
      * rewrite reserved_replace_value. fold index.
        rewrite flag_at_replace_value by (done || lia).
        by rewrite decide_True.
      * by rewrite key_at_replace_value.
    + rewrite value_at_replace_value by (done || lia).
      rewrite decide_True by done. apply assign_value_stores.
Qed.

(** C9 (amended).  Let [set(k, v)] start with [load <= reserved / 2],
    so that it does not rehash first; let [k] sit in an [Occupied]
    slot at probe position [j], let position [i < j] hold a
    tombstone, and let every position before [i] be occupied by
    another key.  Then [set] returns 1 with a fresh entry for [k] at
    position [i], written by the two assign callbacks with
    [old = NULL], and the slot at position [j] keeps its flag, key
    and value: two slots hold [k]. *)
Theorem set_duplicates_behind_tombstone (t : table) fuel (key : K)
    (value : V) (i j : Z) :
  let p x := probe_index (hash key) x (reserved t) in
  wf t →
  load t ≤ reserved t ÷ 2 →
  0 ≤ i < j → j < reserved t →
  slot_matches t key (p j) →
  flag_at t (p i) = HASH_ELEM_DELETED →
  (∀ x, 0 ≤ x < i → slot_taken t key (p x)) →
  ∃ t',
    basic_hash_table_set hash compar assign_key assign_value
      (S (S fuel)) t key value = Done (1, t')
    ∧ log t' = log t ++ [AssignKey (Slot (p i)) (Some key) None;
                         AssignValue (Slot (p i)) (Some value) None]
    ∧ flag_at t' (p i) = HASH_ELEM_USED
    ∧ key_at t' (p i) = key ∧ value_at t' (p i) = value
    ∧ p i ≠ p j
    ∧ slot_matches t' key (p j)
    ∧ key_at t' (p j) = key_at t (p j)
    ∧ value_at t' (p j) = value_at t (p j)
    ∧ load t' = load t + 1 ∧ reserved t' = reserved t.
Proof.
  intros p Hwf Hload Hij Hj [Hju Hjm] Hi Htaken.
  pose proof (wf_probe_index t (hash key) i Hwf) as Hpi.
  pose proof (wf_probe_index t (hash key) j Hwf) as Hpj.
  fold (p i) in Hpi. fold (p j) in Hpj.
  assert (p i ≠ p j) as Hne by (intros Heq; congruence).
  exists (place_new t (p i) key value false).
  split_and!; try done.
  - unfold basic_hash_table_set. rewrite set_inner_S.
    destruct (Z.gtb_spec (load t) (reserved t ÷ 2)); [lia|]. cbn.
    replace (Z.to_nat (reserved t))
      with (Z.to_nat i + S (Z.to_nat (reserved t - i - 1)))%nat by lia.
    rewrite set_probe_taken_many.
    + rewrite set_probe_free.
      * by replace (0 + Z.of_nat (Z.to_nat i)) with i by lia.
      * replace (0 + Z.of_nat (Z.to_nat i)) with i by lia.
        fold (p i). by rewrite Hi.
    + intros x Hx. apply Htaken. lia.
  - rewrite flag_at_place_new by (done || lia). by rewrite decide_True.
  - rewrite key_at_place_new by (done || lia).
    rewrite decide_True by done. apply assign_key_stores.
  - rewrite value_at_place_new by (done || lia).
    rewrite decide_True by done. apply assign_value_stores.
  - split.
    + rewrite flag_at_place_new by (done || lia).
      by rewrite decide_False by done.
    + rewrite key_at_place_new by (done || lia).
      by rewrite decide_False by done.
  - rewrite key_at_place_new by (done || lia).
    by rewrite decide_False by done.
  - rewrite value_at_place_new by (done || lia).
    by rewrite decide_False by done.
Qed.
End StoringPolicy.

End TableFacts.

(** ** Contents and iteration *)

Section Contents.
Context {K V : Type} `{!Inhabited K, !Inhabited V}.
Variable hash : K → Z.
Variable compar : K → K → Z.
Variable assign_key : assign_table_elem_t K.
Variable assign_value : assign_table_elem_t V.

Local Abbreviation table := (basic_hash_table K V).
Local Abbreviation set_inner := (basic_hash_table_set_inner hash compar assign_key assign_value).
Local Abbreviation set_while := (set_inner_while hash compar assign_key assign_value).
Local Abbreviation rehash := (basic_hash_table_rehash hash compar assign_key assign_value).
Local Abbreviation set_probe := (set_probe compar assign_key assign_value).
Local Abbreviation place_new := (place_new assign_key assign_value).
Local Abbreviation replace_value := (replace_value assign_value).
Local Abbreviation next := (basic_hash_table_next assign_key assign_value).
Local Abbreviation slot_taken := (slot_taken compar).
Local Abbreviation slot_matches := (slot_matches compar).
Local Abbreviation get_probe := (get_probe compar).
Local Abbreviation findable := (findable hash compar).
Local Abbreviation built := (built hash compar).

Lemma entries_of_nil_flags (ks : list K) (vs : list V) :
  entries_of ks vs [] = [].
Proof. by destruct ks, vs. Qed.

(** Writing a pair into a slot that was not used adds the pair. *)
Lemma entries_of_insert (k : K) (v : V) (fs : list elem_flags) :
  ∀ (ks : list K) (vs : list V) (i : nat),
    length ks = length fs → length vs = length fs →
    (i < length fs)%nat → fs !!! i ≠ HASH_ELEM_USED →
    entries_of (<[i:=k]> ks) (<[i:=v]> vs) (<[i:=HASH_ELEM_USED]> fs)
    ≡ₚ (k, v) :: entries_of ks vs fs.
Proof.
  induction fs as [|f fs IH]; intros ks vs i Hk Hv Hi Hf; [cbn in Hi; lia|].
  destruct ks as [|k0 ks]; [done|]. destruct vs as [|v0 vs]; [done|].
  destruct i as [|i].
  - change ((f :: fs) !!! 0%nat) with f in Hf. cbn.
    by rewrite decide_True, decide_False.
  - change ((f :: fs) !!! S i) with (fs !!! i) in Hf. cbn in *.
    specialize (IH ks vs i ltac:(lia) ltac:(lia) ltac:(lia) Hf).
    case_decide; [|done]. rewrite IH. apply perm_swap.
Qed.

Lemma entries_of_lookup (fs : list elem_flags) :
  ∀ (ks : list K) (vs : list V) (i : nat),
    length ks = length fs → length vs = length fs →
    (i < length fs)%nat → fs !!! i = HASH_ELEM_USED →
    (ks !!! i, vs !!! i) ∈ entries_of ks vs fs.
Proof.
  induction fs as [|f fs IH]; intros ks vs i Hk Hv Hi Hf; [cbn in Hi; lia|].
  destruct ks as [|k0 ks]; [done|]. destruct vs as [|v0 vs]; [done|].
  destruct i as [|i].
  - change ((f :: fs) !!! 0%nat) with f in Hf. cbn.
    rewrite decide_True by done. apply list_elem_of_here.
  - change ((f :: fs) !!! S i) with (fs !!! i) in Hf. cbn in *.
    specialize (IH ks vs i ltac:(lia) ltac:(lia) ltac:(lia) Hf).
    case_decide; [by apply list_elem_of_further | done].
Qed.

Lemma entries_of_length (fs : list elem_flags) :
  ∀ (ks : list K) (vs : list V),
    length ks = length fs → length vs = length fs →
    length (entries_of ks vs fs)
    = length (filter (λ g, g = HASH_ELEM_USED) fs).
Proof.
  induction fs as [|f fs IH]; intros ks vs Hk Hv.
  - by rewrite entries_of_nil_flags.
  - destruct ks as [|k0 ks]; [done|]. destruct vs as [|v0 vs]; [done|].
    rewrite filter_cons. cbn [entries_of]. cbn in Hk, Hv.
    destruct (decide (f = HASH_ELEM_USED)); cbn [length]; rewrite IH; lia.
Qed.

Lemma entries_lookup (t : table) index :
  wf t → 0 ≤ index < reserved t →
  flag_at t index = HASH_ELEM_USED →
  (key_at t index, value_at t index) ∈ entries t.
Proof.
  intros Hwf Hi Hf. pose proof Hwf as (_ & Hk & Hv & Hl).
  destruct (wf_index t index Hwf Hi) as (_ & _ & Hlt).
  apply entries_of_lookup; [lia | lia | done | done].
Qed.

Lemma entries_length (t : table) :
  wf t → Z.of_nat (length (entries t)) = count_flag HASH_ELEM_USED t.
Proof.
  intros (_ & Hk & Hv & Hl). unfold entries, count_flag.
  rewrite entries_of_length; [done | lia | lia].
Qed.

Lemma entries_rehash_init (t : table) newsize :
  entries (rehash_init t newsize) = [].
Proof.
  unfold entries. cbn. induction (Z.to_nat newsize) as [|n IH]; [done|].
  cbn. by rewrite decide_False.
Qed.

Lemma entries_place_new (t : table) index key value reset :
  wf t → 0 ≤ index < reserved t →
  flag_at t index ≠ HASH_ELEM_USED →
  entries (place_new t index key value reset)
  ≡ₚ (assign_key (key_at t index) (Some key)
        (if reset then Some key else None),
      assign_value (value_at t index) (Some value)
        (if reset then Some value else None)) :: entries t.
Proof.
  intros Hwf Hi Hf. pose proof Hwf as (_ & Hk & Hv & Hl).
  destruct (wf_index t index Hwf Hi) as (_ & _ & Hlt).
  unfold entries. cbn. apply entries_of_insert; [lia | lia | done | done].
Qed.

(** *** Iteration over the entries *)

Lemma entries_from_0 (t : table) : entries_from t 0 = entries t.
Proof. done. Qed.

Lemma entries_from_end (t : table) (i : nat) :
  wf t → (Z.to_nat (reserved t) ≤ i)%nat → entries_from t i = [].
Proof.
  intros (_ & Hk & _) Hi. unfold entries_from.
  by rewrite (drop_ge (keys t)) by lia.
Qed.

Lemma entries_from_S (t : table) (i : nat) :
  wf t → (i < Z.to_nat (reserved t))%nat →
  entries_from t i
  = (if decide (flag_at t (Z.of_nat i) = HASH_ELEM_USED)
     then [(key_at t (Z.of_nat i), value_at t (Z.of_nat i))] else [])
    ++ entries_from t (S i).
Proof.
  intros (_ & Hk & Hv & Hf) Hi.
  unfold entries_from, flag_at, key_at, value_at. rewrite Nat2Z.id.
  rewrite (drop_S (keys t) (keys t !!! i) i),
    (drop_S (values t) (values t !!! i) i),
    (drop_S (flags t) (flags t !!! i) i)
    by (apply list_lookup_lookup_total_lt; lia).
  cbn [entries_of]. by case_decide.
Qed.

Lemma entries_from_skip (t : table) (d : nat) : ∀ i : nat,
  wf t → (i + d ≤ Z.to_nat (reserved t))%nat →
  (∀ j, Z.of_nat i ≤ j < Z.of_nat (i + d) →
        flag_at t j ≠ HASH_ELEM_USED) →
  entries_from t i = entries_from t (i + d).
Proof.
  induction d as [|d IH]; intros i Hwf Hi Hfree.
  - by rewrite Nat.add_0_r.
  - rewrite entries_from_S by (done || lia).
    rewrite decide_False by (apply Hfree; lia). cbn [app].
    rewrite IH by (done || lia || (intros; apply Hfree; lia)).
    f_equal. lia.
Qed.

Lemma next_scan_spec (t : table) (m : nat) : ∀ iter,
  0 ≤ iter ≤ reserved t → (Z.to_nat (reserved t - iter) ≤ m)%nat →
  let iter' := next_scan t iter m in
  iter ≤ iter' ≤ reserved t
  ∧ (∀ j, iter ≤ j < iter' → flag_at t j ≠ HASH_ELEM_USED)
  ∧ (iter' < reserved t → flag_at t iter' = HASH_ELEM_USED).
Proof.
  induction m as [|m IH]; intros iter Hi Hm; cbn.
  - split; [lia|]. split; intros; lia.
  - destruct (Z.ltb_spec iter (reserved t)) as [Hlt|Hge]; cbn.
    + destruct (decide (flag_at t iter = HASH_ELEM_USED)) as [Hu|Hu].
      * rewrite bool_decide_eq_true_2 by done. cbn.
        split; [lia|]. split; [intros; lia | done].
      * rewrite bool_decide_eq_false_2 by done. cbn.
        destruct (IH (iter + 1)) as (? & Hfree & ?); [lia | lia |].
        split; [lia|]. split; [|done].
        intros j Hj. destruct (decide (j = iter)) as [->|]; [done|].
        apply Hfree. lia.
    + split; [lia|]. split; intros; lia.
Qed.

Section Stores.
Hypothesis assign_key_stores : ∀ cell k old, assign_key cell (Some k) old = k.
Hypothesis assign_value_stores :
  ∀ cell v old, assign_value cell (Some v) old = v.

(** What [next] does from a cursor inside the table: it reports the
    first used slot at or after the cursor, or the end. *)
Lemma next_cases (t : table) iter key value :
  wf t → 0 ≤ iter ≤ reserved t →
  (basic_hash_table_next assign_key assign_value t iter key value
   = (reserved t, key, value, [])
   ∧ entries_from t (Z.to_nat iter) = []
   ∧ ∀ j, iter ≤ j < reserved t → flag_at t j ≠ HASH_ELEM_USED)
  ∨ (∃ x, iter ≤ x < reserved t
       ∧ flag_at t x = HASH_ELEM_USED
       ∧ basic_hash_table_next assign_key assign_value t iter key value
         = (x + 1, key_at t x, value_at t x,
            [AssignKey Caller (Some (key_at t x)) (Some (key_at t x));
             AssignValue Caller (Some (value_at t x))
               (Some (value_at t x))])
       ∧ entries_from t (Z.to_nat iter)
         = (key_at t x, value_at t x) :: entries_from t (Z.to_nat (x + 1))).
Proof.
  intros Hwf Hi. unfold basic_hash_table_next.
  pose proof (next_scan_spec t (Z.to_nat (reserved t - iter)) iter
                ltac:(lia) ltac:(lia)) as (Hle & Hfree & Hused).
  set (iter' := next_scan t iter (Z.to_nat (reserved t - iter))) in *.
  rewrite (entries_from_skip t (Z.to_nat (iter' - iter)) (Z.to_nat iter))
    by (done || lia || (intros; apply Hfree; lia)).
  replace (Z.to_nat iter + Z.to_nat (iter' - iter))%nat
    with (Z.to_nat iter') by lia.
  destruct (Z.geb_spec iter' (reserved t)) as [Hge|Hlt].
  - left. rewrite entries_from_end by (done || lia).
    split_and!; [done | done |]. intros j Hj. apply Hfree. lia.
  - right. exists iter'. rewrite entries_from_S by (done || lia).
    rewrite Z2Nat.id by lia. rewrite decide_True by (apply Hused; lia).
    rewrite assign_key_stores, assign_value_stores.
    split_and!; [lia | lia | by apply Hused | done |].
    cbn [app]. do 2 f_equal. lia.
Qed.

Lemma last_default_cons {A} (x y : A) (l : list A) :
  default x (last (y :: l)) = default y (last l).
Proof.
  destruct l as [|z l]; [done|].
  change (last (y :: z :: l)) with (last (z :: l)).
  by destruct (last_is_Some (z :: l)) as [_ [w ->]].
Qed.

(** The loop that stops when [next] returns [end] visits the used
    slots but the last slot of the table. *)
Lemma iterate_until_end_entries (t : table) :
  wf t → ∀ (n : nat) iter key value,
  0 ≤ iter < reserved t → (Z.to_nat (reserved t - iter) ≤ n)%nat →
  iterate_until_end assign_key assign_value t iter key value n
  ++ (if decide (flag_at t (reserved t - 1) = HASH_ELEM_USED)
      then [(key_at t (reserved t - 1), value_at t (reserved t - 1))]
      else [])
  = entries_from t (Z.to_nat iter).
Proof.
  intros Hwf. induction n as [|n IH]; intros iter key value Hi Hn; [lia|].
  cbn [iterate_until_end]. unfold basic_hash_table_end.
  destruct (next_cases t iter key value Hwf ltac:(lia))
    as [(-> & -> & Hfree) | (x & Hx & Hu & -> & ->)].
  - rewrite Z.eqb_refl. by rewrite decide_False by (apply Hfree; lia).
  - destruct (Z.eqb_spec (x + 1) (reserved t)) as [Hend|Hne].
    + replace (reserved t - 1) with x by lia.
      rewrite decide_True by done.
      rewrite entries_from_end by (done || lia). done.
    + cbn [app]. f_equal. apply IH; lia.
Qed.

(** The loop that visits the buffers after every call visits the used
    slots, and the buffers once more unless the last slot of the table
    is used. *)
Lemma iterate_each_call_entries (t : table) :
  wf t → ∀ (n : nat) iter key value,
  0 ≤ iter < reserved t → (Z.to_nat (reserved t - iter) ≤ n)%nat →
  iterate_each_call assign_key assign_value t iter key value n
  = entries_from t (Z.to_nat iter)
    ++ (if decide (flag_at t (reserved t - 1) = HASH_ELEM_USED) then []
        else [default (key, value)
                (last (entries_from t (Z.to_nat iter)))]).
Proof.
  intros Hwf. induction n as [|n IH]; intros iter key value Hi Hn; [lia|].
  cbn [iterate_each_call]. unfold basic_hash_table_end.
  destruct (Z.eqb_spec iter (reserved t)) as [|_]; [lia|].
  assert (∀ k v, iterate_each_call assign_key assign_value t (reserved t)
                   k v n = []) as Hstop.
  { intros k v. destruct n; [done|]. cbn [iterate_each_call].
    unfold basic_hash_table_end. by rewrite Z.eqb_refl. }
  destruct (next_cases t iter key value Hwf ltac:(lia))
    as [(-> & -> & Hfree) | (x & Hx & Hu & -> & ->)].
  - rewrite Hstop. by rewrite decide_False by (apply Hfree; lia).
  - rewrite last_default_cons. cbn [app]. f_equal.
    destruct (Z.eq_dec (x + 1) (reserved t)) as [Hend|Hne].
    + rewrite Hend, Hstop. rewrite entries_from_end by (done || lia).
      replace (reserved t - 1) with x by lia. by rewrite decide_True.
    + apply IH; lia.
Qed.

(** *** Inserting a key that is not in the table *)

Hypothesis compar_eq : ∀ a b, compar a b = 0 ↔ a = b.

Lemma set_probe_adds (t : table) key value reset h n r t' :
  wf t → key ∉ (entries t).*1 →
  set_probe t key value reset h 0 n = Some (r, t') →
  r = 1 ∧ entries t' ≡ₚ (key, value) :: entries t.
Proof.
  intros Hwf Hnew Hp.
  destruct (set_probe_Some _ _ _ _ _ _ _ _ _ _ _ _ Hp)
    as [d _ _ index [(Hf & -> & ->) | ([Hu Hm] & _ & _)]];
    pose proof (wf_probe_index t h (0 + Z.of_nat d) Hwf) as Hidx;
    fold index in Hidx.
  - split; [done|]. rewrite entries_place_new by done.
    by rewrite assign_key_stores, assign_value_stores.
  - apply compar_eq in Hm. destruct Hnew. rewrite Hm.
    apply (list_elem_of_fmap_2 fst _ (key_at t index, value_at t index)).
    by apply entries_lookup.
Qed.

Lemma rehash_loop_entries (I : table → Prop)
    (ins : table → K → V → outcome (Z * table)) :
  (∀ t k v r t', I t → k ∉ (entries t).*1 → NoDup (entries t).*1 →
                 ins t k v = Done (r, t') →
                 I t' ∧ entries t' ≡ₚ (k, v) :: entries t) →
  ∀ (n : nat) old_k old_v old_f t t',
    length old_k = n → length old_v = n → length old_f = n →
    I t → NoDup ((entries t).*1 ++ (entries_of old_k old_v old_f).*1) →
    rehash_loop ins old_k old_v old_f n t = Done t' →
    I t' ∧ entries t' ≡ₚ entries t ++ entries_of old_k old_v old_f.
Proof.
  intros Hins. induction n as [|n IH];
    intros old_k old_v old_f t t' Hk Hv Hf Hwf Hnd Hl.
  - destruct old_k; [|done]. cbn in Hl. injection Hl as <-.
    cbn. by rewrite app_nil_r.
  - destruct old_k as [|k old_k], old_v as [|v old_v], old_f as [|f old_f];
      try done.
    cbn in Hl, Hk, Hv, Hf. apply bind_Done in Hl as (t1 & H1 & Hl).
    rewrite flag_and_used in H1. cbn [entries_of] in *.
    destruct (decide (f = HASH_ELEM_USED)) as [Hu|Hu].
    + rewrite bool_decide_eq_true_2 in H1 by done. cbn in H1.
      apply bind_Done in H1 as ([r t2] & H1 & [= <-]). cbn [snd] in Hl.
      rewrite fmap_cons in Hnd. cbn [fst] in Hnd.
      apply Hins in H1 as [Hwf2 He2]; [|done| |].
      * apply IH in Hl as [? He']; [|lia|lia|lia|done|].
        -- split; [done|]. rewrite He', He2. apply Permutation_middle.
        -- rewrite He2, fmap_cons. cbn [fst].
           assert ((k :: (entries t).*1) ++ (entries_of old_k old_v old_f).*1
                   ≡ₚ (entries t).*1 ++ k :: (entries_of old_k old_v old_f).*1)
             as Hperm by apply Permutation_middle.
           by rewrite Hperm.
      * apply NoDup_app in Hnd as (_ & Hdisj & _).
        intros Hin. apply (Hdisj _ Hin). apply list_elem_of_here.
      * by apply NoDup_app in Hnd as (? & _ & _).
    + rewrite bool_decide_eq_false_2 in H1 by done. cbn in H1.
      injection H1 as <-. apply IH in Hl; [done|lia|lia|lia|done|done].
Qed.

Lemma set_inner_entries fuel :
  (∀ (t : table) key value reset r t',
     wf t → reserved t ≤ INT_MAX →
     key ∉ (entries t).*1 → NoDup (entries t).*1 →
     set_inner fuel t key value reset = Done (r, t') →
     r = 1 ∧ wf t' ∧ entries t' ≡ₚ (key, value) :: entries t)
  ∧ (∀ (t : table) key value reset r t',
     wf t → reserved t ≤ INT_MAX →
     key ∉ (entries t).*1 → NoDup (entries t).*1 →
     set_while fuel t key value reset = Done (r, t') →
     r = 1 ∧ wf t' ∧ entries t' ≡ₚ (key, value) :: entries t)
  ∧ (∀ (t : table) newsize t',
     wf t → NoDup (entries t).*1 → 0 < newsize →
     rehash fuel t (reserved t) newsize = Done t' →
     wf t' ∧ entries t' ≡ₚ entries t).
Proof.
  induction fuel as [|fuel (IHset & IHwhile & IHrehash)]; [done|].
  assert (∀ (t t1 : table) key value reset r t',
            wf t → reserved t ≤ INT_MAX →
            key ∉ (entries t).*1 → NoDup (entries t).*1 →
            rehash fuel t (reserved t) (next_prime_size (reserved t))
              = Done t1 →
            set_while fuel t1 key value reset = Done (r, t') →
            r = 1 ∧ wf t' ∧ entries t' ≡ₚ (key, value) :: entries t)
    as Hgrow.
  { intros t t1 key value reset r t' Hwf Hint Hnew Hnd H1 Hs.
    destruct (rehash_next_int hash compar assign_key assign_value
                _ _ _ _ Hint H1) as (? & _ & ?).
    apply IHrehash in H1 as [Hwf1 He1]; [|done|done|destruct Hwf; lia].
    apply IHwhile in Hs as (? & ? & He'); [|done|lia|by rewrite He1..].
    split_and!; [done | done |]. by rewrite He', He1. }
  split_and!.
  - intros t key value reset r t' Hwf Hint Hnew Hnd Hs.
    rewrite set_inner_S in Hs. apply bind_Done in Hs as (t1 & H1 & Hs).
    destruct (_ >? _).
    + destruct reset; [done|]. by eapply Hgrow.
    + injection H1 as <-. by apply IHwhile in Hs.
  - intros t key value reset r t' Hwf Hint Hnew Hnd Hs.
    rewrite set_while_S in Hs.
    destruct (set_probe _ _ _ _ _ _ _) as [[r1 t1]|] eqn:Hp.
    + injection Hs as -> ->.
      pose proof (set_probe_wf _ _ _ _ _ _ _ _ _ _ _ _ Hwf Hp) as [? _].
      apply set_probe_adds in Hp as [? ?]; done.
    + apply bind_Done in Hs as (t1 & H1 & Hs). by eapply Hgrow.
  - intros t newsize t' Hwf Hnd Hnew Hr.
    destruct (proj2 (proj2 (set_inner_structure hash compar assign_key
                              assign_value (S fuel))) _ _ _ _ Hr)
      as [_ Hint'].
    apply rehash_Done in Hr as [Hfit Hr].
    pose proof Hwf as (_ & Hk & Hv & Hf).
    apply (rehash_loop_entries (λ t, wf t ∧ reserved t ≤ INT_MAX)) in Hr;
      [| |done..| |].
    + rewrite entries_rehash_init in Hr. by destruct Hr as [[? _] ?].
    + intros t0 k v r t0' [Hwf0 Hint0] Hnew0 Hnd0 Hins.
      pose proof (set_inner_wf hash compar assign_key assign_value
                    _ _ _ _ _ _ _ Hwf0 Hins) as [_ Hle].
      apply IHset in Hins as (_ & ? & ?); [|done..].
      split; [split; [done | lia] | done].
    + split; [by apply wf_rehash_init | cbn; nia].
    + by rewrite entries_rehash_init.
Qed.

(** *** What [rehash] builds *)

Lemma entries_of_elem (fs : list elem_flags) :
  ∀ (ks : list K) (vs : list V) k v,
    length ks = length fs → length vs = length fs →
    (k, v) ∈ entries_of ks vs fs →
    ∃ i : nat, (i < length fs)%nat ∧ fs !!! i = HASH_ELEM_USED
               ∧ ks !!! i = k ∧ vs !!! i = v.
Proof.
  induction fs as [|f fs IH]; intros ks vs k v Hk Hv Hin.
  - rewrite entries_of_nil_flags in Hin. by apply elem_of_nil in Hin.
  - destruct ks as [|k0 ks]; [done|]. destruct vs as [|v0 vs]; [done|].
    cbn in Hin, Hk, Hv.
    destruct (decide (f = HASH_ELEM_USED)) as [Hu|Hu].
    + apply elem_of_cons in Hin as [[= -> ->] | Hin].
      * exists 0%nat. cbn. split_and!; [lia | done..].
      * destruct (IH ks vs k v) as (i & ? & ? & ? & ?); [lia | lia | done|].
        exists (S i). cbn. split_and!; [lia | done..].
    + destruct (IH ks vs k v) as (i & ? & ? & ? & ?); [lia | lia | done|].
      exists (S i). cbn. split_and!; [lia | done..].
Qed.

Lemma entries_elem (t : table) k v :
  wf t → (k, v) ∈ entries t →
  ∃ x, 0 ≤ x < reserved t ∧ flag_at t x = HASH_ELEM_USED
       ∧ key_at t x = k ∧ value_at t x = v.
Proof.
  intros (? & Hk & Hv & Hf) Hin.
  apply entries_of_elem in Hin as (i & ? & ? & ? & ?); [|lia..].
  exists (Z.of_nat i). unfold flag_at, key_at, value_at.
  rewrite Nat2Z.id. split_and!; [lia | lia | done..].
Qed.

Lemma built_rehash_init (t : table) newsize :
  0 < newsize → built (rehash_init t newsize).
Proof.
  intros Hnew. split_and!.
  - by apply wf_rehash_init.
  - cbn. by apply Forall_replicate.
  - by rewrite used_count_rehash_init.
  - intros x Hx Hu. unfold flag_at in Hu. cbn in Hx, Hu.
    by rewrite lookup_total_replicate_2 in Hu by lia.
Qed.

Lemma slot_taken_place_new (t : table) index key value reset k y :
  wf t → 0 ≤ index < reserved t → 0 ≤ y →
  flag_at t index ≠ HASH_ELEM_USED →
  slot_taken t k y → slot_taken (place_new t index key value reset) k y.
Proof.
  intros Hwf Hi Hy Hf [Hu Hc].
  assert (y ≠ index) by (intros ->; done).
  split.
  - rewrite flag_at_place_new by done. by rewrite decide_False.
  - rewrite key_at_place_new by done. by rewrite decide_False.
Qed.

Lemma set_probe_built (t : table) key value reset (n : nat) r t' :
  built t → key ∉ (entries t).*1 →
  (n ≤ Z.to_nat (reserved t))%nat →
  set_probe t key value reset (hash key) 0 n = Some (r, t') →
  built t'.
Proof.
  intros (Hwf & Hnodel & Hload & Hfind) Hnew Hn Hp.
  destruct (set_probe_Some _ _ _ _ _ _ _ _ _ _ _ _ Hp)
    as [d Hd Htaken index [(Hf & -> & ->) | ([Hu Hm] & _ & _)]];
    pose proof (wf_probe_index t (hash key) (0 + Z.of_nat d) Hwf) as Hidx;
    fold index in Hidx.
  2:{ apply compar_eq in Hm. destruct Hnew. rewrite Hm.
      apply (list_elem_of_fmap_2 fst _ (key_at t index, value_at t index)).
      by apply entries_lookup. }
  split_and!.
  - by apply wf_place_new.
  - cbn. by apply Forall_insert.
  - rewrite used_count_place_new by done. cbn. lia.
  - intros x Hx Hux. rewrite reserved_place_new in Hx |- *.
    rewrite flag_at_place_new in Hux by (done || lia).
    rewrite key_at_place_new by (done || lia).
    destruct (decide (x = index)) as [->|Hne].
    + rewrite assign_key_stores. exists (0 + Z.of_nat d).
      split_and!; [lia | lia | done |].
      intros j' Hj'. pose proof (wf_probe_index t (hash key) j' Hwf).
      apply slot_taken_place_new; [done | done | lia | done |].
      apply Htaken. lia.
    + destruct (Hfind x Hx Hux) as (j & Hj & Hpj & Hpath).
      exists j. split_and!; [lia | lia | done |].
      intros j' Hj'.
      pose proof (wf_probe_index t (hash (key_at t x)) j' Hwf).
      apply slot_taken_place_new; [done | done | lia | done |].
      by apply Hpath.
Qed.

Lemma set_inner_built fuel :
  (∀ (t : table) key value reset r t',
     built t → reserved t ≤ INT_MAX →
     key ∉ (entries t).*1 → NoDup (entries t).*1 →
     set_inner fuel t key value reset = Done (r, t') → built t')
  ∧ (∀ (t : table) key value reset r t',
     built t → reserved t ≤ INT_MAX →
     key ∉ (entries t).*1 → NoDup (entries t).*1 →
     set_while fuel t key value reset = Done (r, t') → built t')
  ∧ (∀ (t : table) newsize t',
     wf t → NoDup (entries t).*1 → 0 < newsize →
     rehash fuel t (reserved t) newsize = Done t' → built t').
Proof.
  induction fuel as [|fuel (IHset & IHwhile & IHrehash)]; [done|].
  pose proof (set_inner_entries fuel) as (Eset & Ewhile & Erehash).
  assert (∀ (t t1 : table) key value reset r t',
            built t → reserved t ≤ INT_MAX →
            key ∉ (entries t).*1 → NoDup (entries t).*1 →
            rehash fuel t (reserved t) (next_prime_size (reserved t))
              = Done t1 →
            set_while fuel t1 key value reset = Done (r, t') → built t')
    as Hgrow.
  { intros t t1 key value reset r t' Hb Hint Hnew Hnd H1 Hs.
    pose proof Hb as (Hwf & _).
    destruct (rehash_next_int hash compar assign_key assign_value
                _ _ _ _ Hint H1) as (? & _ & ?).
    pose proof (Erehash t (next_prime_size (reserved t)) t1 Hwf Hnd
                  ltac:(destruct Hwf; lia) H1) as [_ He1].
    apply IHrehash in H1; [|done|done|destruct Hwf; lia].
    eapply IHwhile; [done | lia | | | done]; by rewrite He1. }
  split_and!.
  - intros t key value reset r t' Hb Hint Hnew Hnd Hs.
    rewrite set_inner_S in Hs. apply bind_Done in Hs as (t1 & H1 & Hs).
    destruct (_ >? _).
    + destruct reset; [done|]. by eapply Hgrow.
    + injection H1 as <-. by eapply IHwhile.
  - intros t key value reset r t' Hb Hint Hnew Hnd Hs.
    rewrite set_while_S in Hs.
    destruct (set_probe _ _ _ _ _ _ _) as [[r1 t1]|] eqn:Hp.
    + injection Hs as -> ->. by eapply set_probe_built.
    + apply bind_Done in Hs as (t1 & H1 & Hs). by eapply Hgrow.
  - intros t newsize t' Hwf Hnd Hnew Hr.
    apply rehash_Done in Hr as [Hfit Hr].
    pose proof Hwf as (_ & Hk & Hv & Hf).
    apply (rehash_loop_entries (λ t, built t ∧ reserved t ≤ INT_MAX))
      in Hr as [[? _] _]; [done| |done..| |].
    + intros t0 k v r t0' [Hb0 Hint0] Hnew0 Hnd0 Hins.
      destruct Hb0 as (Hwf0 & Hb0).
      pose proof (set_inner_wf hash compar assign_key assign_value
                    _ _ _ _ _ _ _ Hwf0 Hins) as [_ Hle].
      split; [split; [|lia]|].
      * by eapply IHset.
      * by apply Eset in Hins as (_ & _ & ?).
    + split; [by apply built_rehash_init | cbn; nia].
    + by rewrite entries_rehash_init.
Qed.

(** On a table whose used slots are findable, [get] of the key of a
    used slot reports that slot. *)
Lemma findable_get (t : table) x (value_out : option V) (index_out : option Z) :
  findable t → 0 ≤ x < reserved t → flag_at t x = HASH_ELEM_USED →
  basic_hash_table_get_inner hash compar assign_value t (key_at t x)
    value_out index_out
  = get_hit assign_value t x value_out index_out.
Proof.
  intros Hfind Hx Hu. destruct (Hfind x Hx Hu) as (j & Hj & Hpj & Hpath).
  unfold basic_hash_table_get_inner.
  replace (Z.to_nat (reserved t))
    with (Z.to_nat j + S (Z.to_nat (reserved t - j - 1)))%nat by lia.
  rewrite get_probe_skip_many.
  - replace (0 + Z.of_nat (Z.to_nat j)) with j by lia.
    rewrite get_probe_hit; [by rewrite Hpj|].
    rewrite Hpj. split; [done | by apply compar_eq].
  - intros j' Hj'. right. apply Hpath. lia.
Qed.

(** Where no key sits in two used slots, [rehash] keeps the contents:
    the used slots hold the same pairs, [get] of each key reports its
    value, no slot is a tombstone and [load] counts the used slots. *)
Lemma rehash_preserves_contents fuel (t : table) newsize t' :
  wf t → NoDup (entries t).*1 → 0 < newsize →
  rehash fuel t (reserved t) newsize = Done t' →
  entries t' ≡ₚ entries t
  ∧ (∀ k v out, (k, v) ∈ entries t →
       basic_hash_table_get hash compar assign_value t' k (Some out)
       = {| found := 1; value_out := Some v; index_out := None;
            get_calls := [AssignValue Caller (Some v) (Some v)] |})
  ∧ (HASH_ELEM_DELETED ∉ flags t')
  ∧ load t' = count_flag HASH_ELEM_USED t'.
Proof.
  intros Hwf Hnd Hnew Hr.
  pose proof (proj2 (proj2 (set_inner_entries fuel)) _ _ _ Hwf Hnd Hnew Hr)
    as [Hwf' He].
  pose proof (proj2 (proj2 (set_inner_built fuel)) _ _ _ Hwf Hnd Hnew Hr)
    as (_ & Hnodel & Hload & Hfind).
  split_and!; [done | | | done].
  - intros k v out Hin. rewrite <- He in Hin.
    apply entries_elem in Hin as (x & Hx & Hu & <- & <-); [|done].
    unfold basic_hash_table_get. rewrite findable_get by done.
    unfold get_hit. cbn. by rewrite assign_value_stores.
  - intros Hin. by apply (proj1 (Forall_forall _ _) Hnodel) in Hin.
Qed.

Lemma set_all_entries fuel (kvs : list (K * V)) : ∀ (t t' : table),
  wf t → reserved t ≤ INT_MAX → NoDup ((entries t).*1 ++ kvs.*1) →
  set_all hash compar assign_key assign_value fuel t kvs = Done t' →
  wf t' ∧ entries t' ≡ₚ entries t ++ kvs.
Proof.
  induction kvs as [|[k v] kvs IH]; intros t t' Hwf Hint Hnd Hs.
  - cbn in Hs. injection Hs as <-. by rewrite app_nil_r.
  - cbn in Hs. apply bind_Done in Hs as ([r t1] & H1 & Hs). cbn [snd] in Hs.
    rewrite fmap_cons in Hnd. cbn [fst] in Hnd.
    pose proof Hnd as (Hnd0 & Hdisj & _)%NoDup_app.
    pose proof (set_inner_wf hash compar assign_key assign_value
                  _ _ _ _ _ _ _ Hwf H1) as [_ Hle].
    apply (proj1 (set_inner_entries fuel)) in H1 as (_ & Hwf1 & He1);
      [|done|done| |done].
    + apply IH in Hs as [? He']; [|done|lia|].
      * split; [done|]. rewrite He', He1. apply Permutation_middle.
      * rewrite He1, fmap_cons. cbn [fst].
        assert ((k :: (entries t).*1) ++ kvs.*1
                ≡ₚ (entries t).*1 ++ k :: kvs.*1)
          as Hperm by apply Permutation_middle.
        by rewrite Hperm.
    + intros Hin. apply (Hdisj _ Hin). apply list_elem_of_here.
Qed.

End Stores.

End Contents.

(** ** Termination of [set] *)

Lemma mod_distinct (x y m : Z) : 0 < y - x < m → x mod m ≠ y mod m.
Proof.
  intros Hd Heq.
  assert ((y - x) mod m = 0) as Hz.
  { rewrite Zminus_mod, Heq, Z.sub_diag. apply Z.mod_0_l. lia. }
  rewrite Z.mod_small in Hz by lia. lia.
Qed.

(** Among the first [2 n + 1] probes there are [n + 1] consecutive ones
    on the same side of the wrap-around of [hash + i * i]; when the
    capacity exceeds [4 n²], an [int], their indices are pairwise
    distinct. *)
Lemma distinct_probes (h m n : Z) :
  0 ≤ n → 4 * n * n ≤ INT_MAX → 4 * n * n < m →
  ∃ a, 0 ≤ a ∧ a + n < m
       ∧ ∀ i j, a ≤ i < j → j ≤ a + n →
                probe_index h i m ≠ probe_index h j m.
Proof.
  intros Hn Hint Hm.
  assert (hash_modulus = 2 ^ 64) as Hw by done.
  assert (INT_MAX < 2 ^ 31) as Hmax by done.
  pose proof (Z.mod_pos_bound h hash_modulus hash_modulus_pos) as Hh0.
  assert (∀ i, (h + i * i) mod hash_modulus
               = (h mod hash_modulus + i * i) mod hash_modulus) as Hidem.
  { intros i. by rewrite Z.add_mod_idemp_l by lia. }
  destruct (Z.lt_ge_cases (h mod hash_modulus + n * n) hash_modulus)
    as [Hlt|Hge].
  - exists 0. split_and!; [lia | nia |].
    intros i j Hij Hj. rewrite !probe_index_int by nia.
    unfold to_hash_t. rewrite !Hidem.
    rewrite !(Z.mod_small (_ + _) hash_modulus) by nia.
    apply mod_distinct. nia.
  - exists n. split_and!; [lia | nia |].
    intros i j Hij Hj. rewrite !probe_index_int by nia.
    unfold to_hash_t. rewrite !Hidem.
    assert (∀ k, n ≤ k ≤ n + n →
              (h mod hash_modulus + k * k) mod hash_modulus
              = h mod hash_modulus + k * k - hash_modulus) as Hwrap.
    { intros k Hk.
      rewrite <- (Z.mod_small (_ + _ - _) hash_modulus) by nia.
      rewrite Zminus_mod, Z.mod_same, Z.sub_0_r, Z.mod_mod by lia. done. }
    rewrite !Hwrap by lia. apply mod_distinct. nia.
Qed.

(** *** More fuel does not change a result *)

Lemma outcome_le_refl {A} (m : outcome A) : outcome_le m m.
Proof. by right. Qed.

Lemma outcome_le_trans {A} (m1 m2 m3 : outcome A) :
  outcome_le m1 m2 → outcome_le m2 m3 → outcome_le m1 m3.
Proof. intros [->| ->] H; [by left | done]. Qed.

Lemma outcome_le_bind {A B} (m m' : outcome A) (f f' : A → outcome B) :
  outcome_le m m' → (∀ a, outcome_le (f a) (f' a)) →
  outcome_le (m ≫= f) (m' ≫= f').
Proof.
  intros [->| ->] Hf; [by left|]. destruct m'; cbn; [apply Hf | by right..].
Qed.

Lemma outcome_le_Done {A} (m m' : outcome A) x :
  outcome_le m m' → m = Done x → m' = Done x.
Proof. by intros [->| ->]. Qed.

Lemma outcome_le_ends {A} (m m' : outcome A) :
  outcome_le m m' → returns_or_aborts m → m' = m.
Proof. by intros [->| ->] [[? ?]|?]. Qed.

Section Termination.
Context {K V : Type} `{!Inhabited K, !Inhabited V}.
Variable hash : K → Z.
Variable compar : K → K → Z.
Variable assign_key : assign_table_elem_t K.
Variable assign_value : assign_table_elem_t V.

Local Abbreviation table := (basic_hash_table K V).
Local Abbreviation set_inner := (basic_hash_table_set_inner hash compar assign_key assign_value).
Local Abbreviation set_while := (set_inner_while hash compar assign_key assign_value).
Local Abbreviation rehash := (basic_hash_table_rehash hash compar assign_key assign_value).
Local Abbreviation set_probe := (set_probe compar assign_key assign_value).
Local Abbreviation counted := (counted (K:=K) (V:=V)).
Local Abbreviation while_terminates := (while_terminates hash compar assign_key assign_value).
Local Abbreviation while_ends := (while_ends hash compar assign_key assign_value).

Lemma rehash_loop_le
    (ins1 ins2 : table → K → V → outcome (Z * table)) :
  (∀ t k v, outcome_le (ins1 t k v) (ins2 t k v)) →
  ∀ n old_k old_v old_f t,
    outcome_le (rehash_loop ins1 old_k old_v old_f n t)
      (rehash_loop ins2 old_k old_v old_f n t).
Proof.
  intros Hins. induction n as [|n IH]; intros old_k old_v old_f t;
    [apply outcome_le_refl|].
  destruct old_k as [|k old_k], old_v as [|v old_v], old_f as [|f old_f];
    try apply outcome_le_refl.
  cbn [rehash_loop]. apply outcome_le_bind; [|intros; apply IH].
  destruct (_ =? _); [apply outcome_le_refl|].
  apply outcome_le_bind; [apply Hins | intros; apply outcome_le_refl].
Qed.

Lemma fuel_le_S fuel :
  (∀ (t : table) key value reset,
     outcome_le (set_inner fuel t key value reset)
       (set_inner (S fuel) t key value reset))
  ∧ (∀ (t : table) key value reset,
     outcome_le (set_while fuel t key value reset)
       (set_while (S fuel) t key value reset))
  ∧ (∀ (t : table) oldsize newsize,
     outcome_le (rehash fuel t oldsize newsize)
       (rehash (S fuel) t oldsize newsize)).
Proof.
  induction fuel as [|fuel (IHset & IHwhile & IHrehash)];
    [by split_and!; intros; left|].
  split_and!.
  - intros t key value reset.
    rewrite (set_inner_S _ _ _ _ fuel), (set_inner_S _ _ _ _ (S fuel)).
    apply outcome_le_bind; [|intros; apply IHwhile].
    destruct (_ >? _); [|apply outcome_le_refl].
    destruct reset; [apply outcome_le_refl | apply IHrehash].
  - intros t key value reset.
    rewrite (set_while_S _ _ _ _ fuel), (set_while_S _ _ _ _ (S fuel)).
    destruct (set_probe _ _ _ _ _ _ _); [apply outcome_le_refl|].
    apply outcome_le_bind; [apply IHrehash | intros; apply IHwhile].
  - intros t oldsize newsize.
    rewrite (rehash_S _ _ _ _ fuel), (rehash_S _ _ _ _ (S fuel)).
    apply outcome_le_bind; [apply outcome_le_refl|]. intros _.
    apply rehash_loop_le. intros. apply IHset.
Qed.

Lemma fuel_le fuel fuel' :
  (fuel ≤ fuel')%nat →
  (∀ (t : table) key value reset,
     outcome_le (set_inner fuel t key value reset)
       (set_inner fuel' t key value reset))
  ∧ (∀ (t : table) key value reset,
     outcome_le (set_while fuel t key value reset)
       (set_while fuel' t key value reset))
  ∧ (∀ (t : table) oldsize newsize,
     outcome_le (rehash fuel t oldsize newsize)
       (rehash fuel' t oldsize newsize)).
Proof.
  induction 1 as [|fuel' _ (IHset & IHwhile & IHrehash)];
    [by split_and!; intros; right|].
  destruct (fuel_le_S fuel') as (Hset & Hwhile & Hrehash).
  split_and!; intros; eapply outcome_le_trans; eauto.
Qed.

Lemma fuel_mono fuel fuel' :
  (fuel ≤ fuel')%nat →
  (∀ (t : table) key value reset x,
     set_inner fuel t key value reset = Done x →
     set_inner fuel' t key value reset = Done x)
  ∧ (∀ (t : table) key value reset x,
     set_while fuel t key value reset = Done x →
     set_while fuel' t key value reset = Done x)
  ∧ (∀ (t : table) oldsize newsize x,
     rehash fuel t oldsize newsize = Done x →
     rehash fuel' t oldsize newsize = Done x).
Proof.
  intros Hle. destruct (fuel_le fuel fuel' Hle) as (Hset & Hwhile & Hrehash).
  split_and!; intros; eapply outcome_le_Done; eauto.
Qed.

Lemma rehash_loop_mono
    (ins1 ins2 : table → K → V → outcome (Z * table)) :
  (∀ t k v x, ins1 t k v = Done x → ins2 t k v = Done x) →
  ∀ n old_k old_v old_f t t',
    rehash_loop ins1 old_k old_v old_f n t = Done t' →
    rehash_loop ins2 old_k old_v old_f n t = Done t'.
Proof.
  intros Hins. induction n as [|n IH]; intros old_k old_v old_f t t' Hl;
    [done|].
  destruct old_k as [|k old_k], old_v as [|v old_v], old_f as [|f old_f];
    try done.
  cbn in Hl |- *. apply bind_Done in Hl as (t1 & H1 & Hl).
  apply bind_Done. exists t1. split; [|by apply IH].
  destruct (_ =? _); [done|].
  apply bind_Done in H1 as (x & H1 & Hx). apply bind_Done.
  exists x. split; [by apply Hins | done].
Qed.

(** *** The retry loop ends *)

(** [resize3] to the next size of a table of the invariant: it
    returns, for a larger capacity whose block has an [int] size, or
    [malloc] fails. *)
Lemma next_resize (t : table) :
  counted t →
  let n := next_prime_size (reserved t) in
  resize3 (key_size t) (value_size t) 1 n = AssertionFailed
  ∨ ((∃ x, resize3 (key_size t) (value_size t) 1 n = Done x)
     ∧ reserved t < n ≤ INT_MAX ∧ capacity_ok n
     ∧ (key_size t + value_size t + 1) * n ≤ INT_MAX).
Proof.
  intros Hc n. pose proof (counted_int t Hc) as Hint.
  destruct Hc as (_ & _ & _ & Hk & Hv & Hfit).
  assert (INT_MAX = 2 ^ 31 - 1) as Hmax by done.
  assert (INT_MIN = - 2 ^ 31) as Hmin by done.
  assert (returns_or_aborts (resize3 (key_size t) (value_size t) 1 n))
    as [[x Hx]|Hx]; [|right|by left].
  { apply resize3_returns_or_aborts; [done | done | nia |].
    destruct (Z.le_gt_cases 0 n) as [Hpos|Hneg].
    - destruct (next_prime_size_grows (reserved t)) as (? & _ & ? & _);
        [lia | done |]. fold n in H, H0. nia.
    - assert (INT_MAX < reserved t * 2) as Hbig.
      { destruct (Z.le_gt_cases (reserved t * 2) INT_MAX) as [Hsmall|]; [|done].
        pose proof (next_prime_size_int (reserved t) Hsmall) as [? _].
        fold n in H. lia. }
      assert (key_size t + value_size t + 1 = 1) as -> by nia.
      pose proof (next_prime_size_cases (reserved t)) as Hcases.
      fold n in Hcases.
      assert (n = to_int (to_int (reserved t * 2) - reserved t ÷ 2)) as Hn
        by lia.
      pose proof (to_int_range (to_int (reserved t * 2) - reserved t ÷ 2)).
      lia. }
  pose proof (resize3_Done _ _ _ _ _ Hx) as (_ & _ & _ & Hpos & Hfit').
  destruct (next_prime_size_grows (reserved t)) as (? & ? & _);
    [lia | done |].
  split_and!; eauto; unfold n; lia.
Qed.

(** The loop of [rehash] ends when the retry loop does on the tables
    of at least the new size. *)
Lemma rehash_loop_ends (newsize : Z) :
  (∀ t' : table, newsize ≤ reserved t' → counted t' → while_ends t') →
  ∀ (n : nat) old_k old_v old_f (t : table),
    counted t → newsize ≤ reserved t →
    ∃ fuel,
      returns_or_aborts
        (rehash_loop (λ t k v, set_inner fuel t k v true)
           old_k old_v old_f n t).
Proof.
  intros Hbigger.
  induction n as [|n IH]; intros old_k old_v old_f t Hc Hres.
  { exists 0%nat. left. by exists t. }
  destruct old_k as [|k old_k], old_v as [|v old_v], old_f as [|f old_f];
    try (exists 0%nat; left; by exists t).
  cbn [rehash_loop]. rewrite flag_and_used.
  destruct (decide (f = HASH_ELEM_USED)) as [Hu|Hu].
  - rewrite bool_decide_eq_true_2 by done. cbn [negb].
    destruct (Hbigger t Hres Hc k v true) as (f1 & Hw).
    assert (returns_or_aborts (set_inner (S f1) t k v true)) as Hs.
    { rewrite set_inner_S. destruct (_ >? _); [by right | done]. }
    destruct Hs as [[[r t2] Hs]|Hs].
    + pose proof (proj1 (set_inner_counted hash compar assign_key
                           assign_value (S f1)) _ _ _ _ _ _ Hc Hs)
        as (Hc2 & _ & Hr2 & _).
      destruct (IH old_k old_v old_f t2 Hc2 ltac:(lia)) as (f2 & Hl).
      exists (S f1 `max` f2)%nat.
      rewrite (outcome_le_Done _ _ _
                 (proj1 (fuel_le (S f1) (S f1 `max` f2) ltac:(lia))
                    t k v true) Hs).
      cbn.
      by rewrite (outcome_le_ends _ _
                    (rehash_loop_le _ _
                       (λ t k v, proj1 (fuel_le f2 (S f1 `max` f2) ltac:(lia))
                                   t k v true) _ _ _ _ _) Hl).
    + exists (S f1). rewrite Hs. by right.
  - rewrite bool_decide_eq_false_2 by done. cbn [negb].
    destruct (IH old_k old_v old_f t Hc Hres) as (f2 & Hl).
    by exists f2.
Qed.

(** A [rehash] to the next size and the retry loop that follows it
    end when the retry loop does on larger tables. *)
Lemma grow_then_while_ends (t : table) key value reset :
  counted t →
  (∀ t' : table, reserved t < reserved t' → counted t' → while_ends t') →
  ∃ fuel,
    returns_or_aborts
      (rehash fuel t (reserved t) (next_prime_size (reserved t))
       ≫= λ t1, set_while fuel t1 key value reset).
Proof.
  intros Hc Hbigger.
  destruct (next_resize t Hc) as [Hfail | ([x Hx] & Hn & Hcap & Hfit)].
  { exists 1%nat. rewrite rehash_S, Hfail. by right. }
  destruct (rehash_loop_ends (next_prime_size (reserved t)))
    with (n := Z.to_nat (reserved t)) (old_k := keys t) (old_v := values t)
         (old_f := flags t)
         (t := rehash_init t (next_prime_size (reserved t)))
    as (f1 & Hl).
  - intros t' Hle. apply Hbigger. lia.
  - pose proof (counted_int t Hc). destruct Hc as (_ & _ & _ & Hk & Hv & _).
    split_and!; [apply wf_rehash_init; lia | done | | by split_and!].
    rewrite used_count_rehash_init. cbn. lia.
  - cbn. lia.
  - assert (returns_or_aborts
              (rehash (S f1) t (reserved t) (next_prime_size (reserved t))))
      as [[t1 Hr]|Hr] by (by rewrite rehash_S, Hx).
    + pose proof (proj2 (proj2 (set_inner_counted hash compar assign_key
                                  assign_value (S f1)))
                    _ _ _ _ Hcap Hr) as (Hc1 & _ & Hr1).
      destruct (Hbigger t1 ltac:(lia) Hc1 key value reset) as (f2 & Hw).
      exists (S f1 `max` f2)%nat.
      rewrite (outcome_le_Done _ _ _
                 (proj2 (proj2 (fuel_le (S f1) (S f1 `max` f2) ltac:(lia)))
                    t _ _) Hr).
      cbn.
      by rewrite (outcome_le_ends _ _
                    (proj1 (proj2 (fuel_le f2 (S f1 `max` f2) ltac:(lia)))
                       t1 key value reset) Hw).
    + exists (S f1). rewrite Hr. by right.
Qed.

Lemma while_ends_counted (d : nat) : ∀ t : table,
  (Z.to_nat (INT_MAX - reserved t) ≤ d)%nat → counted t → while_ends t.
Proof.
  induction d as [d IH] using lt_wf_ind. intros t Hd Hc.
  pose proof (counted_int t Hc) as Hint.
  assert (∀ t' : table, reserved t < reserved t' → counted t' →
                        while_ends t') as Hbigger.
  { intros t' Hlt Hc'. pose proof (counted_int t' Hc').
    apply (IH (Z.to_nat (INT_MAX - reserved t'))); [lia | lia | done]. }
  intros key value reset.
  destruct (grow_then_while_ends t key value reset Hc Hbigger) as (fuel & Hg).
  exists (S fuel). rewrite set_while_S.
  destruct (set_probe _ _ _ _ _ _ _) as [[r t']|]; [|done].
  left. by eexists.
Qed.

(** [set] on a table of the invariant returns or stops in the [assert]
    of [resize3]. *)
Lemma set_ends_counted (t : table) key value :
  counted t →
  ∃ fuel,
    returns_or_aborts
      (basic_hash_table_set hash compar assign_key assign_value fuel t
         key value).
Proof.
  intros Hc.
  assert (∀ t' : table, counted t' → while_ends t') as Hwhile.
  { intros t' Hc'.
    by apply (while_ends_counted (Z.to_nat (INT_MAX - reserved t'))). }
  unfold basic_hash_table_set.
  destruct (Z.gtb_spec (load t) (reserved t ÷ 2)) as [Hgt|Hle].
  - destruct (grow_then_while_ends t key value false Hc) as (fuel & Hg).
    { intros t' _. apply Hwhile. }
    exists (S fuel). rewrite set_inner_S.
    by destruct (Z.gtb_spec (load t) (reserved t ÷ 2)); [|lia].
  - destruct (Hwhile t Hc key value false) as (fuel & Hw).
    exists (S fuel). rewrite set_inner_S.
    by destruct (Z.gtb_spec (load t) (reserved t ÷ 2)); [lia|].
Qed.

(** *** A full scan finds a slot in a large enough table *)

(** Distinct slots that are all used are no more than the used slots. *)
Lemma used_slots_bound (slots : list nat) : ∀ fs : list elem_flags,
  NoDup slots →
  (∀ i, i ∈ slots → fs !! i = Some HASH_ELEM_USED) →
  (length slots ≤ length (filter (λ g, g = HASH_ELEM_USED) fs))%nat.
Proof.
  induction slots as [|a slots IH]; intros fs Hnd Hused; [cbn; lia|].
  apply NoDup_cons in Hnd as [Ha Hnd].
  assert (fs !! a = Some HASH_ELEM_USED) as Hfa
    by apply Hused, list_elem_of_here.
  pose proof (lookup_lt_Some _ _ _ Hfa) as Hlt.
  pose proof (count_insert HASH_ELEM_USED HASH_ELEM_EMPTY fs a Hlt) as Hc.
  rewrite (list_lookup_total_correct _ _ _ Hfa) in Hc.
  rewrite decide_True, decide_False in Hc by done.
  specialize (IH (<[a:=HASH_ELEM_EMPTY]> fs) Hnd).
  cbn [length]. etrans; [apply le_n_S, IH|lia].
  intros i Hi. rewrite list_lookup_insert_ne by (intros ->; done).
  by apply Hused, list_elem_of_further.
Qed.

Lemma set_probe_finds_slot (t : table) key value reset (n : Z) :
  wf t → 0 ≤ n → 4 * n * n ≤ INT_MAX →
  used_count t ≤ n → 4 * n * n < reserved t →
  ∃ r t', set_probe t key value reset (hash key) 0 (Z.to_nat (reserved t))
          = Some (r, t').
Proof.
  intros Hwf Hn Hint Hused Hbig.
  destruct (set_probe _ _ _ _ _ _ _) as [[r t']|] eqn:Hp; [by eauto|].
  exfalso.
  pose proof (set_probe_None _ _ _ _ _ _ _ _ _ _ Hp) as Htaken.
  destruct (distinct_probes (hash key) (reserved t) n Hn Hint Hbig)
    as (a & Ha & Han & Hdist).
  set (slots := (λ i, Z.to_nat (probe_index (hash key) i (reserved t)))
                  <$> seqZ a (n + 1)).
  assert (length slots ≤ length (filter (λ g, g = HASH_ELEM_USED) (flags t)))%nat
    as Hle.
  { apply used_slots_bound.
    - apply NoDup_fmap_2_strong; [|apply NoDup_seqZ].
      intros i j Hi%elem_of_seqZ Hj%elem_of_seqZ Heq.
      pose proof (wf_probe_index t (hash key) i Hwf).
      pose proof (wf_probe_index t (hash key) j Hwf).
      destruct (Z.lt_trichotomy i j) as [Hlt | [-> | Hgt]]; [|done|].
      + destruct (Hdist i j); lia.
      + destruct (Hdist j i); lia.
    - intros s (i & -> & Hi%elem_of_seqZ)%list_elem_of_fmap.
      destruct (Htaken i ltac:(lia)) as [Hu _].
      pose proof (wf_probe_index t (hash key) i Hwf) as Hidx.
      destruct (wf_index t _ Hwf Hidx) as (_ & _ & Hlt).
      unfold flag_at in Hu. rewrite <- Hu.
      by apply list_lookup_lookup_total_lt. }
  unfold slots in Hle. rewrite length_fmap, length_seqZ in Hle.
  unfold used_count, count_flag in Hused. lia.
Qed.

(** *** The retry loop and [rehash] return where the blocks they need
    have an [int] size *)

Section Bound.
(** [N] bounds the number of used slots during the call. *)
Variable N : Z.
Hypothesis N_range : 0 ≤ N.

Local Abbreviation while_ready := (while_ready N).

(** The element sizes leave room for a table of [8 N² + 698] cells. *)
Lemma while_ready_room (t : table) :
  while_ready t →
  0 ≤ key_size t ∧ 0 ≤ value_size t ∧ 8 * N * N + 698 ≤ INT_MAX.
Proof.
  intros ((_ & _ & _ & Hk & Hv & _) & _ & _ & Hroom). split_and!; [done..|].
  unfold INT_MAX in *. nia.
Qed.

Lemma while_terminates_big (t : table) :
  while_ready t → 4 * N * N < reserved t → while_terminates t.
Proof.
  intros Hready Hbig key value reset.
  pose proof (while_ready_room t Hready) as (_ & _ & Hroom).
  destruct Hready as ((Hwf & _) & Hused & _).
  destruct (set_probe_finds_slot t key value reset N Hwf N_range
              ltac:(lia) Hused Hbig) as (r & t' & Hp).
  exists 1%nat, r, t'. rewrite set_while_S. by rewrite Hp.
Qed.

Lemma rehash_loop_terminates (newsize : Z) :
  0 < newsize →
  (∀ t', newsize ≤ reserved t' → while_ready t' → while_terminates t') →
  ∀ (n : nat) old_k old_v old_f (t : table),
    counted t → newsize ≤ reserved t →
    (key_size t + value_size t + 1) * (8 * N * N + 698) ≤ INT_MAX →
    load t + Z.of_nat (length (filter (λ g, g = HASH_ELEM_USED)
                                 (take n old_f))) ≤ N →
    load t + Z.of_nat (length (filter (λ g, g = HASH_ELEM_USED)
                                 (take n old_f))) ≤ newsize ÷ 2 →
    ∃ fuel t',
      rehash_loop (λ t k v, set_inner fuel t k v true)
        old_k old_v old_f n t = Done t'.
Proof.
  intros Hnew Hbigger.
  induction n as [|n IH]; intros old_k old_v old_f t Hc Hres Hroom HN Hhalf.
  { by exists 0%nat, t. }
  destruct old_k as [|k old_k], old_v as [|v old_v], old_f as [|f old_f];
    try by exists 0%nat, t.
  cbn [take] in HN, Hhalf. rewrite filter_cons in HN, Hhalf.
  destruct (decide (f = HASH_ELEM_USED)) as [Hu|Hu]; cbn [length] in HN, Hhalf.
  - pose proof Hc as (Hwf & Hcap & Hused & Hfit).
    pose proof (quot2_mono newsize (reserved t) ltac:(lia)) as Hq.
    destruct (Hbigger t Hres) with (key := k) (value := v) (reset := true)
      as (f1 & r & t2 & Hw).
    { split_and!; [done | lia | lia | done]. }
    assert (set_inner (S f1) t k v true = Done (r, t2)) as Hs.
    { rewrite set_inner_S.
      destruct (Z.gtb_spec (load t) (reserved t ÷ 2)); [lia | done]. }
    pose proof (proj1 (set_inner_counted hash compar assign_key assign_value
                         (S f1)) _ _ _ _ _ _ Hc Hs)
      as (Hc2 & Hl2 & Hr2 & _).
    pose proof (proj1 (set_inner_sizes hash compar assign_key assign_value
                         (S f1)) _ _ _ _ _ _ Hs) as [Hks Hvs].
    destruct (IH old_k old_v old_f t2 Hc2) as (f2 & t' & Hl);
      [lia | by rewrite Hks, Hvs | lia | lia |].
    exists (S f1 `max` f2)%nat, t'. cbn [rehash_loop].
    rewrite flag_and_used, bool_decide_eq_true_2 by done. cbn [negb].
    apply bind_Done. exists t2. split.
    + apply bind_Done. exists (r, t2). split; [|done].
      apply (fuel_mono (S f1)); [lia | done].
    + eapply rehash_loop_mono; [|done].
      intros. apply (fuel_mono f2); [lia | done].
  - destruct (IH old_k old_v old_f t Hc) as (f2 & t' & Hl); [done..|].
    exists f2, t'. cbn [rehash_loop].
    rewrite flag_and_used, bool_decide_eq_false_2 by done. cbn [negb].
    apply bind_Done. by exists t.
Qed.

Lemma rehash_terminates (t : table) (newsize : Z) :
  capacity_ok newsize →
  0 ≤ key_size t → 0 ≤ value_size t →
  (key_size t + value_size t + 1) * newsize ≤ INT_MAX →
  (key_size t + value_size t + 1) * (8 * N * N + 698) ≤ INT_MAX →
  used_count t ≤ N → used_count t ≤ newsize ÷ 2 →
  (∀ t', newsize ≤ reserved t' → while_ready t' → while_terminates t') →
  ∃ fuel t', rehash fuel t (reserved t) newsize = Done t'.
Proof.
  intros Hcap Hk Hv Hfit Hroom HN Hhalf Hbigger.
  pose proof (capacity_ok_pos _ Hcap).
  pose proof (count_take_le HASH_ELEM_USED (flags t)
                (Z.to_nat (reserved t))) as Htake.
  unfold used_count, count_flag in HN, Hhalf.
  destruct (rehash_loop_terminates newsize ltac:(lia) Hbigger
              (Z.to_nat (reserved t)) (keys t) (values t) (flags t)
              (rehash_init t newsize))
    as (fuel & t' & Hl).
  - split_and!; [apply wf_rehash_init; lia | done | | by split_and!].
    rewrite used_count_rehash_init. cbn. lia.
  - cbn. lia.
  - done.
  - cbn. lia.
  - cbn. lia.
  - exists (S fuel), t'. rewrite rehash_fits by (done || lia). done.
Qed.

Lemma while_terminates_ready (d : nat) : ∀ t : table,
  (Z.to_nat (4 * N * N + 1 - reserved t) ≤ d)%nat →
  while_ready t → while_terminates t.
Proof.
  induction d as [d IH] using lt_wf_ind. intros t Hd Hready.
  assert (∀ t', reserved t < reserved t' →
                while_ready t' → while_terminates t') as Hbigger.
  { intros t' Hlt Hready'.
    destruct (Z.lt_ge_cases (4 * N * N) (reserved t')) as [Hbig|Hsmall].
    - by apply while_terminates_big.
    - apply (IH (Z.to_nat (4 * N * N + 1 - reserved t'))); [lia | lia | done]. }
  intros key value reset.
  destruct (set_probe t key value reset (hash key) 0 (Z.to_nat (reserved t)))
    as [[r t']|] eqn:Hp.
  { exists 1%nat, r, t'. rewrite set_while_S. by rewrite Hp. }
  pose proof (while_ready_room t Hready) as (Hk & Hv & Hroom8).
  assert (reserved t ≤ 4 * N * N) as Hsmall.
  { destruct (Z.lt_ge_cases (4 * N * N) (reserved t)) as [Hbig|]; [|lia].
    destruct Hready as ((Hwf & _) & Hused & _).
    destruct (set_probe_finds_slot t key value reset N Hwf N_range
                ltac:(lia) Hused Hbig) as (? & ? & Hp').
    congruence. }
  destruct Hready as (Hc & HN & Hhalf & Hroom).
  pose proof Hc as (Hwf & Hcap & Hused & _).
  pose proof (capacity_ok_pos _ Hcap).
  destruct (next_prime_size_int (reserved t)) as [Hgt Hexact]; [lia|].
  destruct (next_prime_size_grows (reserved t)) as (_ & Hcapn & Hdouble & _);
    [lia | lia |].
  pose proof (quot2_mono (reserved t) (next_prime_size (reserved t))
                ltac:(lia)) as Hq.
  assert ((key_size t + value_size t + 1) * next_prime_size (reserved t)
          ≤ INT_MAX) as Hfitn by nia.
  destruct (rehash_terminates t (next_prime_size (reserved t)))
    as (f1 & t1 & Hr); [done | done | done | done | done | done | lia | |].
  { intros t' Hle. apply Hbigger. lia. }
  pose proof (proj2 (proj2 (set_inner_counted hash compar assign_key
                              assign_value f1))
                _ _ _ _ Hcapn Hr) as (Hc1 & Hl1 & Hr1).
  pose proof (proj2 (proj2 (set_inner_sizes hash compar assign_key
                              assign_value f1)) _ _ _ _ Hr) as [Hks Hvs].
  pose proof (quot2_mono (next_prime_size (reserved t)) (reserved t1)
                ltac:(lia)) as Hq1.
  destruct (Hbigger t1) with (key := key) (value := value) (reset := reset)
    as (f2 & r & t' & Hw); [lia | |].
  { pose proof Hc1 as (? & ? & ? & ?).
    split_and!; [done | lia | lia | by rewrite Hks, Hvs]. }
  exists (S (f1 `max` f2)), r, t'. rewrite set_while_S, Hp.
  apply bind_Done. exists t1. split.
  - apply (fuel_mono f1); [lia | done].
  - apply (fuel_mono f2); [lia | done].
Qed.

End Bound.

(** A [set] on a table of the invariant returns when the block of a
    table of twice its capacity, and of [8 n² + 698] cells for its [n]
    used slots, has an [int] size. *)
Lemma set_returns_counted (t : table) :
  counted t → load t ≤ reserved t ÷ 2 + 1 →
  (key_size t + value_size t + 1)
  * (2 * reserved t + 8 * used_count t * used_count t + 698) ≤ INT_MAX →
  ∀ key value, ∃ fuel r t',
    basic_hash_table_set hash compar assign_key assign_value fuel t
      key value = Done (r, t').
Proof.
  intros Hc Hload Hroom key value.
  pose proof Hc as (Hwf & Hcap & Hused & Hk & Hv & Hfit).
  pose proof (used_count_range t Hwf) as Hrange.
  pose proof (capacity_ok_pos _ Hcap).
  assert (0 ≤ used_count t) as HN by lia.
  assert ((key_size t + value_size t + 1)
          * (8 * used_count t * used_count t + 698) ≤ INT_MAX
          ∧ (key_size t + value_size t + 1) * (2 * reserved t) ≤ INT_MAX)
    as [Hroom8 Hroom2] by nia.
  assert (∀ t', while_ready (used_count t) t' → while_terminates t')
    as Hwhile.
  { intros t'. by apply (while_terminates_ready (used_count t) HN
                           (Z.to_nat (4 * used_count t * used_count t + 1
                                       - reserved t'))). }
  unfold basic_hash_table_set.
  destruct (Z.gtb_spec (load t) (reserved t ÷ 2)) as [Hgt|Hle].
  - destruct (next_prime_size_int (reserved t)) as [Hnext _]; [nia|].
    destruct (next_prime_size_grows (reserved t))
      as (_ & Hcapn & Hdouble & _); [lia | lia |].
    pose proof (next_prime_size_half _ Hcap ltac:(lia) ltac:(lia)) as Hhalf.
    destruct (rehash_terminates (used_count t) t
                (next_prime_size (reserved t)))
      as (f1 & t1 & Hr); [done | done | done | nia | done | lia | lia | |].
    { intros t' _. apply Hwhile. }
    pose proof (proj2 (proj2 (set_inner_counted hash compar assign_key
                                assign_value f1))
                  _ _ _ _ Hcapn Hr) as (Hc1 & Hl1 & Hr1).
    pose proof (proj2 (proj2 (set_inner_sizes hash compar assign_key
                                assign_value f1)) _ _ _ _ Hr) as [Hks Hvs].
    pose proof (quot2_mono (next_prime_size (reserved t)) (reserved t1)
                  ltac:(lia)) as Hq1.
    destruct (Hwhile t1) with (key := key) (value := value) (reset := false)
      as (f2 & r & t' & Hw).
    { pose proof Hc1 as (? & ? & ? & ?).
      split_and!; [done | lia | lia | by rewrite Hks, Hvs]. }
    exists (S (f1 `max` f2)), r, t'. rewrite set_inner_S.
    destruct (Z.gtb_spec (load t) (reserved t ÷ 2)); [|lia].
    apply bind_Done. exists t1. split.
    + apply (fuel_mono f1); [lia | done].
    + apply (fuel_mono f2); [lia | done].
  - destruct (Hwhile t) with (key := key) (value := value) (reset := false)
      as (f & r & t' & Hw).
    { split_and!; [done | lia | lia | done]. }
    exists (S f), r, t'. rewrite set_inner_S.
    destruct (Z.gtb_spec (load t) (reserved t ÷ 2)); [lia|]. done.
Qed.

Lemma set_returns_reachable (t : table) :
  reachable hash compar assign_key assign_value t →
  (key_size t + value_size t + 1)
  * (2 * reserved t + 8 * used_count t * used_count t + 698) ≤ INT_MAX →
  ∀ key value, ∃ fuel r t',
    basic_hash_table_set hash compar assign_key assign_value fuel t
      key value = Done (r, t').
Proof.
  intros Hreach. apply reachable_counted in Hreach as [? ?].
  by apply set_returns_counted.
Qed.

(** C5.  On a table built by [new], [set] and [remove], every [set]
    ends: some amount of fuel, which bounds the passes of the retry
    loop, is enough for it to return or to stop in the [assert] of
    [resize3], where [malloc] has failed.  It returns when the block of
    a table of twice the capacity, and of [8 n² + 698] cells for the [n]
    used slots, has an [int] size.  And every [rehash] of a well-formed
    table of [int] capacity to the next size leaves a strictly larger
    capacity, an [int] again, that exceeds [load]. *)
Theorem set_terminates (t : table) :
  reachable hash compar assign_key assign_value t →
  (∀ key value, ∃ fuel,
     returns_or_aborts
       (basic_hash_table_set hash compar assign_key assign_value fuel t
          key value))
  ∧ ((key_size t + value_size t + 1)
     * (2 * reserved t + 8 * used_count t * used_count t + 698) ≤ INT_MAX →
     ∀ key value, ∃ fuel r t',
       basic_hash_table_set hash compar assign_key assign_value fuel t
         key value = Done (r, t'))
  ∧ (∀ (t1 : table) fuel t1',
       wf t1 → reserved t1 ≤ INT_MAX →
       rehash fuel t1 (reserved t1) (next_prime_size (reserved t1))
         = Done t1' →
       reserved t1 < reserved t1' ≤ INT_MAX ∧ load t1' < reserved t1').
Proof.
  intros Hreach. split_and!.
  - intros key value. apply set_ends_counted.
    by apply reachable_counted in Hreach as [? _].
  - by apply set_returns_reachable.
  - intros t1 fuel t1' Hwf1 Hint1 Hr.
    destruct (rehash_next_int hash compar assign_key assign_value
                _ _ _ _ Hint1 Hr) as (Hgt & _ & Hle).
    destruct (next_prime_size_grows (reserved t1)) as (_ & Hcapn & _);
      [done | destruct Hwf1; lia |].
    pose proof (proj2 (proj2 (set_inner_counted hash compar assign_key
                                assign_value fuel))
                  _ _ _ _ Hcapn Hr) as (_ & Hl & _).
    pose proof (used_count_range t1 Hwf1). lia.
Qed.

End Termination.

(** ** [get] after [set] *)

Section GetAfterSet.
Context {K V : Type} `{!Inhabited K, !Inhabited V}.
Variable hash : K → Z.
Variable compar : K → K → Z.
Variable assign_key : assign_table_elem_t K.
Variable assign_value : assign_table_elem_t V.
Hypothesis compar_refl : ∀ k, compar k k = 0.
Hypothesis assign_key_stores : ∀ cell k old, assign_key cell (Some k) old = k.
Hypothesis assign_value_stores :
  ∀ cell v old, assign_value cell (Some v) old = v.

(** C1.  On a well-formed table, whenever [set(k, v)] has returned, the
    [get(k)] that follows returns 1 and leaves [v] in the out buffer,
    through one call of the value callback on it; and on a table built
    by [new], [set] and [remove], [set(k, v)] does return when the
    block of a table of twice the capacity, and of [8 n² + 698] cells
    for the [n] used slots, has an [int] size. *)
Theorem get_after_set (t : basic_hash_table K V) (key : K) (value out : V) :
  wf t →
  (∀ fuel r t',
     basic_hash_table_set hash compar assign_key assign_value fuel t
       key value = Done (r, t') →
     basic_hash_table_get hash compar assign_value t' key (Some out)
     = {| found := 1; value_out := Some value; index_out := None;
          get_calls := [AssignValue Caller (Some value) (Some value)] |})
  ∧ (reachable hash compar assign_key assign_value t →
     (key_size t + value_size t + 1)
     * (2 * reserved t + 8 * used_count t * used_count t + 698) ≤ INT_MAX →
     ∃ fuel r t',
       basic_hash_table_set hash compar assign_key assign_value fuel t
         key value = Done (r, t')).
Proof.
  intros Hwf. split.
  - intros fuel r t' Hs. unfold basic_hash_table_set in Hs.
    apply (set_inner_structure hash compar assign_key assign_value fuel)
      in Hs as (t1 & Hwf1 & _ & Hp); [|by destruct Hwf].
    pose proof (set_probe_wf _ _ _ _ _ _ _ _ _ _ _ _ Hwf1 Hp) as [_ Hres].
    apply get_probe_after_set_probe in Hp as (index & _ & Hg & Hv);
      [|done..].
    unfold basic_hash_table_get, basic_hash_table_get_inner.
    rewrite Hres, Hg, Hv. cbn. by rewrite assign_value_stores.
  - intros Hreach Hroom. by apply set_returns_reachable.
Qed.

End GetAfterSet.

(** ** Capacity growth *)

(** C7 (amended).  For every capacity whose double is an [int], the
    capacity chosen on growth is strictly larger and an [int]: below 349
    it is the least entry of [primes] above the current capacity, from
    349 on it is [old * 2 - old / 2], computed without overflow.  No
    [set] on a well-formed table of [int] capacity and no [remove]
    returns a table of smaller capacity.  And the double of the capacity
    of a table built by [new], [set] and [remove] is an [int], when its
    keys and values have a size: [resize3] computes the size of the
    block in [int]. *)
Theorem capacity_growth_strictly_monotonic :
  (∀ old : Z,
     old * 2 ≤ INT_MAX →
     old < next_prime_size old ≤ INT_MAX
     ∧ if old <? 349
       then next_prime_size old ∈ primes
            ∧ ∀ p, p ∈ primes → old < p → next_prime_size old ≤ p
       else next_prime_size old = old * 2 - old ÷ 2)
  ∧ (∀ (K V : Type) `(!Inhabited K, !Inhabited V) hash compar assign_key
       assign_value fuel (t : basic_hash_table K V) key value r t',
       wf t → reserved t ≤ INT_MAX →
       basic_hash_table_set hash compar assign_key assign_value fuel t
         key value = Done (r, t') →
       reserved t ≤ reserved t' ≤ INT_MAX)
  ∧ (∀ (K V : Type) `(!Inhabited K, !Inhabited V) hash compar assign_key
       assign_value (t : basic_hash_table K V) key out,
       reserved (basic_hash_table_remove hash compar assign_key
                   assign_value t key out).1.2 = reserved t)
  ∧ (∀ (K V : Type) `(!Inhabited K, !Inhabited V) hash compar assign_key
       assign_value (t : basic_hash_table K V),
       reachable hash compar assign_key assign_value t →
       1 ≤ key_size t → 1 ≤ value_size t →
       reserved t * 2 ≤ INT_MAX).
Proof.
  split_and!.
  - intros old Hint. destruct (next_prime_size_int old Hint) as [Hgt Hexact].
    split; [done|].
    destruct (Z.ltb_spec old 349) as [Hlt|Hge]; [|by apply Hexact].
    split; [|intros p Hp Hlt'; revert Hp]; unfold primes;
      rewrite !elem_of_cons, elem_of_nil;
      destruct (next_prime_size_cases old) as
        [H|[H|[H|[H|[H|[H|[H|[H|[H|[H1 H2]]]]]]]]]]; lia.
  - intros K V ? ? hash compar assign_key assign_value fuel t key value r t'
      Hwf Hint Hs.
    apply set_inner_wf in Hs as [_ ?]; [|done]. lia.
  - intros K V ? ? hash compar assign_key assign_value t key out.
    unfold basic_hash_table_remove. by destruct (_ =? _).
  - intros K V ? ? hash compar assign_key assign_value t Hreach Hk Hv.
    apply reachable_counted in Hreach as [(_ & _ & _ & _ & _ & Hfit) _].
    unfold INT_MAX in *. nia.
Qed.

(** ** The load bound *)

Section LoadBound.
Context {K V : Type} `{!Inhabited K, !Inhabited V}.
Variable hash : K → Z.
Variable compar : K → K → Z.
Variable assign_key : assign_table_elem_t K.
Variable assign_value : assign_table_elem_t V.

(** C4 (amended).  On a table built by [new], [set] and [remove], a
    [set] or [remove] that returns leaves [load <= reserved / 2 + 1]
    (integer division): [set] compares [load] with [reserved / 2]
    before it adds the element. *)
Theorem load_bound_after_set_and_remove (t : basic_hash_table K V) :
  reachable hash compar assign_key assign_value t →
  (∀ fuel key value r t',
     basic_hash_table_set hash compar assign_key assign_value fuel t
       key value = Done (r, t') →
     load t' ≤ reserved t' ÷ 2 + 1)
  ∧ (∀ key out r t' out',
     basic_hash_table_remove hash compar assign_key assign_value t
       key out = (r, t', out') →
     load t' ≤ reserved t' ÷ 2 + 1).
Proof.
  intros Hreach. split.
  - intros fuel key value r t' Hs.
    by apply (reachable_counted hash compar assign_key assign_value t'),
      (reachable_set _ _ _ _ fuel t key value r t').
  - intros key out r t' out' Hr.
    by apply (reachable_counted hash compar assign_key assign_value t'),
      (reachable_remove _ _ _ _ t key out r t' out').
Qed.
End LoadBound.

(** ** Concrete runs *)

Module Runs.
Import Examples.

Lemma run_reachable hash ops : ∀ t t',
  reachable hash compare_short assign_short assign_long t →
  run hash t ops = Done t' →
  reachable hash compare_short assign_short assign_long t'.
Proof.
  induction ops as [|[k v|k] ops IH]; intros t t' Hreach Hrun; cbn in Hrun.
  - by injection Hrun as <-.
  - apply bind_Done in Hrun as ([r t1] & Hs & Hrun).
    apply (IH t1); [|done].
    by apply (reachable_set _ _ _ _ 10%nat t k v r t1).
  - apply (IH (remove hash t k).1.2); [|done].
    apply (reachable_remove _ _ _ _ t k None (remove hash t k).1.1 _
             (remove hash t k).2); [done|].
    unfold remove. by destruct (basic_hash_table_remove _ _ _ _ _ _ _) as [[? ?] ?].
Qed.

Lemma table_after_reachable hash ops t :
  (t ← new hash; run hash t ops) = Done t →
  reachable hash compare_short assign_short assign_long
    (table_after hash ops).
Proof.
  intros Hrun. unfold table_after. rewrite Hrun.
  apply bind_Done in Hrun as (t0 & Hnew & Hrun).
  eapply run_reachable; [|done].
  by apply (reachable_new _ _ _ _ sizeof_short sizeof_long 10%nat).
Qed.

Lemma set_all_reachable hash fuel kvs : ∀ t t',
  reachable hash compare_short assign_short assign_long t →
  set_all hash compare_short assign_short assign_long fuel t kvs = Done t' →
  reachable hash compare_short assign_short assign_long t'.
Proof.
  induction kvs as [|[k v] kvs IH]; intros t t' Hreach Hs; cbn in Hs.
  - by injection Hs as <-.
  - apply bind_Done in Hs as ([r t1] & H1 & Hs).
    apply (IH t1); [|done].
    by apply (reachable_set _ _ _ _ fuel t k v r t1).
Qed.

Local Abbreviation reachable_id :=
  (reachable hash_id compare_short assign_short assign_long).
Local Abbreviation set := (set hash_id).
Local Abbreviation get := (get hash_id).
Local Abbreviation remove := (remove hash_id).
Local Abbreviation rehash := (rehash hash_id).
Local Abbreviation table_after := (table_after hash_id).

Ltac reachable_by_run :=
  eapply table_after_reachable; vm_compute; reflexivity.

Lemma compare_short_refl k : compare_short k k = 0.
Proof. unfold compare_short. lia. Qed.

Lemma assign_short_stores cell k old : assign_short cell (Some k) old = k.
Proof. done. Qed.

Lemma assign_long_stores cell v old : assign_long cell (Some v) old = v.
Proof. done. Qed.

(** C1 at a table of three keys and a fourth. *)
Lemma get_after_set_witness :
  wf (table_after (fill 3))
  ∧ set (table_after (fill 3)) 5 50 = Done (1, table_after (fill 3 ++ [Set_ 5 50]))
  ∧ get (table_after (fill 3 ++ [Set_ 5 50])) 5
    = {| found := 1; value_out := Some 50; index_out := None;
         get_calls := [AssignValue Caller (Some 50) (Some 50)] |}.
Proof.
  assert (wf (table_after (fill 3))) as Hwf by (by vm_compute).
  assert (set (table_after (fill 3)) 5 50
          = Done (1, table_after (fill 3 ++ [Set_ 5 50]))) as Hs
    by (vm_compute; reflexivity).
  split_and!; [done | done |].
  exact (proj1 (get_after_set hash_id compare_short assign_short assign_long
                  compare_short_refl assign_short_stores assign_long_stores
                  _ 5 50 0 Hwf) _ _ _ Hs).
Defined.

(** C2, the defect.  Key 13 is set, set again behind a tombstone, and
    removed once: [remove(13)] returns 1 and the [get(13)] that follows
    still returns 1, with the value of the first [set].  The same with
    the hash of [test_stol] and its keys 6 and 10. *)
Theorem get_after_remove_finds_older_entry :
  (let t := table_after duplicated in
   reachable_id t
   ∧ (remove t 13).1.1 = 1
   ∧ get (remove t 13).1.2 13
     = {| found := 1; value_out := Some 113; index_out := None;
          get_calls := [AssignValue Caller (Some 113) (Some 113)] |})
  ∧ (let t := Examples.table_after hash_short stol_duplicated in
     reachable hash_short compare_short assign_short assign_long t
     ∧ (Examples.remove hash_short t 10).1.1 = 1
     ∧ Examples.get hash_short (Examples.remove hash_short t 10).1.2 10
       = {| found := 1; value_out := Some 100; index_out := None;
            get_calls := [AssignValue Caller (Some 100) (Some 100)] |}).
Proof.
  split; (split_and!; [reachable_by_run | by vm_compute | by vm_compute]).
Qed.

(** C3, the defect.  With key 13 in slots 0 (value 213, the one [get]
    reports) and 1 (value 113) and [load = 7 > 13 / 2], the rehash that
    the next [set] runs leaves one slot for key 13, holding 113. *)
Theorem rehash_keeps_older_value_of_duplicated_key :
  let t := table_after duplicated_full in
  reachable_id t
  ∧ load t > reserved t ÷ 2
  ∧ slots_holding compare_short t 13 = [0; 1]
  ∧ value_at t 0 = 213 ∧ value_at t 1 = 113
  ∧ value_out (get t 13) = Some 213
  ∧ (∃ t', rehash t = Done t'
           ∧ slots_holding compare_short t' 13 = [13]
           ∧ load t' = count_flag HASH_ELEM_USED t'
           ∧ get t' 13
             = {| found := 1; value_out := Some 113; index_out := None;
                  get_calls := [AssignValue Caller (Some 113) (Some 113)] |})
  ∧ (∃ r t', set t 6 60 = Done (r, t')
             ∧ value_out (get t' 13) = Some 113).
Proof.
  split_and!; [reachable_by_run | by vm_compute ..| |].
  - eexists. split; [by vm_compute|]. by vm_compute.
  - eexists _, _. split; [by vm_compute|]. by vm_compute.
Qed.

(** C4 as stated fails.  After the seventh [set] into a new table,
    [load = 7] at capacity 13, above [13 / 2 = 6]; after the 263rd,
    [load = 263] at capacity 524, above [524 / 2] however it is
    rounded. *)
Lemma load_above_half_after_set :
  (reachable_id (table_after (fill 6))
   ∧ set (table_after (fill 6)) 6 60 = Done (1, table_after (fill 7))
   ∧ reserved (table_after (fill 7)) = 13
   ∧ load (table_after (fill 7)) = 7
   ∧ ¬ load (table_after (fill 7)) ≤ reserved (table_after (fill 7)) ÷ 2)
  ∧ (reachable_id (table_after (fill 262))
     ∧ set (table_after (fill 262)) 262 2620
       = Done (1, table_after (fill 263))
     ∧ reserved (table_after (fill 263)) = 524
     ∧ load (table_after (fill 263)) = 263
     ∧ ¬ 2 * load (table_after (fill 263))
         ≤ reserved (table_after (fill 263)) + 1).
Proof.
  split; (split_and!; [reachable_by_run | by vm_compute ..]).
Qed.

(** C4 (amended) at the table of six keys and a seventh. *)
Lemma load_bound_witness :
  reachable_id (table_after (fill 6))
  ∧ load (table_after (fill 7)) ≤ reserved (table_after (fill 7)) ÷ 2 + 1.
Proof.
  assert (reachable_id (table_after (fill 6))) as Hreach by reachable_by_run.
  split; [done|].
  refine (proj1 (load_bound_after_set_and_remove hash_id compare_short
                   assign_short assign_long _ Hreach) 10%nat 6 60 1 _ _).
  by vm_compute.
Defined.

(** C5 at the table of six keys, whose blocks are small. *)
Lemma set_terminates_witness :
  reachable_id (table_after (fill 6))
  ∧ (key_size (table_after (fill 6)) + value_size (table_after (fill 6)) + 1)
    * (2 * reserved (table_after (fill 6))
       + 8 * used_count (table_after (fill 6))
         * used_count (table_after (fill 6)) + 698) ≤ INT_MAX
  ∧ ∃ fuel r t',
      basic_hash_table_set hash_id compare_short assign_short assign_long
        fuel (table_after (fill 6)) 6 60 = Done (r, t').
Proof.
  assert (reachable_id (table_after (fill 6))) as Hreach by reachable_by_run.
  assert ((key_size (table_after (fill 6))
           + value_size (table_after (fill 6)) + 1)
          * (2 * reserved (table_after (fill 6))
             + 8 * used_count (table_after (fill 6))
               * used_count (table_after (fill 6)) + 698) ≤ INT_MAX)
    as Hroom by (by vm_compute).
  split_and!; [exact Hreach | exact Hroom |].
  exact (proj1 (proj2 (set_terminates hash_id compare_short assign_short
                         assign_long _ Hreach)) Hroom 6 60).
Defined.

(** C6 as stated fails.  With a hash of [2 ^ 64 - 1] the sum
    [hash + i * i] wraps around from [i = 1] on: the slots visited are 2,
    0, 3, 8, where [(hash + i * i) mod 13] gives 2, 3, 6, 11.  After
    [set(1, 10)] and [set(2, 20)] key 2 is in slot 0, where [get] finds
    it at its second probe; slot 3 is empty.  And from [i = 46341] on
    [i * i] is no [int]. *)
Lemma get_probe_wraps_around :
  (let t := Examples.table_after hash_max [Set_ 1 10; Set_ 2 20] in
   reachable hash_max compare_short assign_short assign_long t
   ∧ reserved t = 13
   ∧ (λ i, probe_index (hash_max 2) i (reserved t)) <$> [0; 1; 2; 3]
     = [2; 0; 3; 8]
   ∧ (λ i, (hash_max 2 + i * i) mod reserved t) <$> [0; 1; 2; 3]
     = [2; 3; 6; 11]
   ∧ flag_at t 3 = HASH_ELEM_EMPTY
   ∧ basic_hash_table_get_inner hash_max compare_short assign_long t 2
       (Some 0) (Some 0)
     = {| found := 1; value_out := Some 20; index_out := Some 0;
          get_calls := [AssignValue Caller (Some 20) (Some 20)] |})
  ∧ INT_MAX < 46341 * 46341
  ∧ probe_index 0 46341 50000 = 22601
  ∧ (0 + 46341 * 46341) mod 50000 = 38281.
Proof.
  split; [split_and! | split_and!]; try (vm_compute; reflexivity).
  eapply table_after_reachable. vm_compute; reflexivity.
Qed.

(** C6 (amended) at [behind_tombstone]: [get(13)] steps over the
    tombstone at probe position 0 and reports the slot at position 1,
    which is slot [(13 + 1 * 1) mod 13]; [get(26)] steps over both and
    stops at the empty slot of position 2. *)
Lemma get_probes_witness :
  let t := table_after behind_tombstone in
  get t 13 = get_hit assign_long t 1 (Some 0) None
  ∧ get t 26 = get_miss (Some 0) None
  ∧ probe_index (hash_id 13) 1 (reserved t)
    = (hash_id 13 + 1 * 1) mod reserved t.
Proof.
  intros t.
  pose proof (get_probes_quadratic_sequence hash_id compare_short
                assign_long t 13 (Some 0) None) as (H13 & _ & Hp).
  pose proof (get_probes_quadratic_sequence hash_id compare_short
                assign_long t 26 (Some 0) None) as [H26 _].
  split_and!.
  - refine (proj2 (H13 1 _ _) _).
    + by vm_compute.
    + intros j Hj. assert (j = 0) as -> by lia. left. by vm_compute.
    + split; by vm_compute.
  - refine (proj1 (H26 2 _ _) _).
    + by vm_compute.
    + intros j Hj. assert (j = 0 ∨ j = 1) as [-> | ->] by lia.
      * left. by vm_compute.
      * right. split; by vm_compute.
    + by vm_compute.
  - refine (proj2 (Hp 1 _ _) _ _); by vm_compute.
Defined.

(** C7 as stated fails.  1431655765 is an [int] capacity; its double is
    not, and the [int] result of [old * 2 - old / 2] is [INT_MIN]. *)
Lemma capacity_growth_overflow :
  1431655765 ≤ INT_MAX
  ∧ INT_MAX < 1431655765 * 2
  ∧ next_prime_size 1431655765 = INT_MIN
  ∧ ¬ 1431655765 < next_prime_size 1431655765.
Proof. split_and!; [by vm_compute ..|]. by vm_compute. Qed.

(** C7 (amended) at capacities 13, 348 and 349, and at a [set] that
    grows. *)
Lemma capacity_growth_witness :
  349 * 2 ≤ INT_MAX
  ∧ 349 < next_prime_size 349 ≤ INT_MAX
  ∧ next_prime_size 13 = 17 ∧ next_prime_size 348 = 349
  ∧ next_prime_size 349 = 524
  ∧ reserved (table_after (fill 7)) ≤ reserved (table_after (fill 8)).
Proof.
  assert (349 * 2 ≤ INT_MAX) as Hint by (by vm_compute).
  pose proof (proj1 (proj1 capacity_growth_strictly_monotonic 349 Hint))
    as [Hgt Hle].
  assert (reserved (table_after (fill 7)) ≤ reserved (table_after (fill 8)))
    as Hset.
  { refine (proj1 (proj1 (proj2 capacity_growth_strictly_monotonic) Z Z _ _
              hash_id compare_short assign_short assign_long 10%nat
              (table_after (fill 7)) 7 70 1 _ _ _ _)); by vm_compute. }
  split_and!; [exact Hint | exact Hgt | exact Hle | by vm_compute ..
               | exact Hset].
Defined.

Lemma compare_short_eq a b : compare_short a b = 0 ↔ a = b.
Proof. unfold compare_short. lia. Qed.

(** C8, the defect.  [next] returns [end] both after it has copied out
    the last slot of the table and when it has found no further slot, so
    neither loop over the cursor visits the inserted pairs on every
    table.  After [set(0, 0)] and [set(12, 120)] slot 12, the last, is
    used: the loop that stops at [end] visits one pair.  After the
    three [set]s of [fill 3] it is not: the loop that visits after
    every call visits four pairs.  And of the eight pairs of
    [test_stol], one of them in the last slot, 16, the loop that stops
    at [end] visits seven. *)
Theorem iteration_loses_or_repeats_a_pair :
  (let t := table_after [Set_ 0 0; Set_ 12 120] in
   reachable_id t
   ∧ entries t = [(0, 0); (12, 120)]
   ∧ basic_hash_table_end t = 13
   ∧ basic_hash_table_next assign_short assign_long t 1 0 0
     = (13, 12, 120, [AssignKey Caller (Some 12) (Some 12);
                      AssignValue Caller (Some 120) (Some 120)])
   ∧ iterate_until_end assign_short assign_long t (basic_hash_table_begin t)
       inhabitant inhabitant (Z.to_nat (reserved t)) = [(0, 0)]
   ∧ iterate_each_call assign_short assign_long t (basic_hash_table_begin t)
       inhabitant inhabitant (Z.to_nat (reserved t)) = [(0, 0); (12, 120)])
  ∧ (let t := table_after (fill 3) in
     reachable_id t
     ∧ entries t = [(0, 0); (1, 10); (2, 20)]
     ∧ basic_hash_table_end t = 13
     ∧ basic_hash_table_next assign_short assign_long t 3 2 20
       = (13, 2, 20, [])
     ∧ iterate_each_call assign_short assign_long t
         (basic_hash_table_begin t) inhabitant inhabitant
         (Z.to_nat (reserved t))
       = [(0, 0); (1, 10); (2, 20); (2, 20)]
     ∧ iterate_until_end assign_short assign_long t
         (basic_hash_table_begin t) inhabitant inhabitant
         (Z.to_nat (reserved t))
       = [(0, 0); (1, 10); (2, 20)])
  ∧ (reachable hash_short compare_short assign_short assign_long stol_table
     ∧ entries stol_table ≡ₚ zip stol_keys stol_values
     ∧ basic_hash_table_end stol_table = 17
     ∧ flag_at stol_table 16 = HASH_ELEM_USED
     ∧ (key_at stol_table 16, value_at stol_table 16) = (4, 40)
     ∧ length (iterate_until_end assign_short assign_long stol_table
                 (basic_hash_table_begin stol_table) inhabitant inhabitant
                 (Z.to_nat (reserved stol_table))) = 7%nat
     ∧ (4, 40) ∉ iterate_until_end assign_short assign_long stol_table
                   (basic_hash_table_begin stol_table) inhabitant inhabitant
                   (Z.to_nat (reserved stol_table))).
Proof.
  split; [|split]; split_and!.
  - reachable_by_run.
  - vm_compute; reflexivity.
  - vm_compute; reflexivity.
  - vm_compute; reflexivity.
  - vm_compute; reflexivity.
  - vm_compute; reflexivity.
  - reachable_by_run.
  - vm_compute; reflexivity.
  - vm_compute; reflexivity.
  - vm_compute; reflexivity.
  - vm_compute; reflexivity.
  - vm_compute; reflexivity.
  - apply (set_all_reachable hash_short 10%nat (zip stol_keys stol_values)
             stol_empty).
    + apply (reachable_new _ _ _ _ sizeof_short sizeof_long 10%nat).
      vm_compute; reflexivity.
    + vm_compute; reflexivity.
  - apply (bool_decide_unpack
             (entries stol_table ≡ₚ zip stol_keys stol_values)).
    vm_compute. exact I.
  - vm_compute; reflexivity.
  - vm_compute; reflexivity.
  - vm_compute; reflexivity.
  - vm_compute; reflexivity.
  - apply (bool_decide_unpack
             ((4, 40) ∉ iterate_until_end assign_short assign_long stol_table
                          (basic_hash_table_begin stol_table) inhabitant
                          inhabitant (Z.to_nat (reserved stol_table)))).
    vm_compute. exact I.
Qed.

(** C9 as stated fails.  In the first table key 13 sits at probe
    position 1 behind a tombstone at position 0, but [load = 7 > 13 / 2]:
    [set(13, 213)] rehashes first and then replaces the value of the
    one slot of key 13, returning 0.  In the second table key 26 sits
    at position 2 behind tombstones at positions 0 and 1: [set(26,
    226)] fills position 0, and position 1 stays a tombstone. *)
Lemma set_behind_tombstone_counterexample :
  (let t := table_after behind_tombstone_full in
   let p x := probe_index (hash_id 13) x (reserved t) in
   reachable_id t
   ∧ slot_matches compare_short t 13 (p 1)
   ∧ flag_at t (p 0) = HASH_ELEM_DELETED
   ∧ ∃ t', set t 13 213 = Done (0, t')
           ∧ slots_holding compare_short t' 13 = [13])
  ∧ (let t := table_after behind_two_tombstones in
     let p x := probe_index (hash_id 26) x (reserved t) in
     reachable_id t
     ∧ load t ≤ reserved t ÷ 2
     ∧ slot_matches compare_short t 26 (p 2)
     ∧ flag_at t (p 1) = HASH_ELEM_DELETED
     ∧ ¬ slot_matches compare_short t 26 (p 0)
     ∧ ∃ t', set t 26 226 = Done (1, t')
             ∧ flag_at t' (p 1) = HASH_ELEM_DELETED
             ∧ slots_holding compare_short t' 26 = [p 0; p 2]).
Proof.
  split.
  - split_and!; [reachable_by_run | by vm_compute | by vm_compute |].
    eexists. split; by vm_compute.
  - split_and!; [reachable_by_run | by vm_compute ..| | ].
    + intros [Hu _]. by vm_compute in Hu.
    + eexists. split; [by vm_compute|]. split; by vm_compute.
Qed.

(** C9 (amended) at [behind_tombstone], key 13, positions 0 and 1. *)
Lemma set_duplicates_witness :
  let t := table_after behind_tombstone in
  wf t ∧ load t ≤ reserved t ÷ 2
  ∧ ∃ t', set t 13 213 = Done (1, t')
          ∧ log t' = log t ++ [AssignKey (Slot 0) (Some 13) None;
                               AssignValue (Slot 0) (Some 213) None]
          ∧ slots_holding compare_short t' 13 = [0; 1].
Proof.
  intros t.
  assert (wf t) as Hwf by (by vm_compute).
  assert (load t ≤ reserved t ÷ 2) as Hload by (by vm_compute).
  split_and!; [done | done |].
  destruct (set_duplicates_behind_tombstone hash_id compare_short
              assign_short assign_long assign_short_stores
              assign_long_stores t 8 13 213 0 1 Hwf Hload)
    as (t' & Hs & Hlog & _).
  - lia.
  - by vm_compute.
  - split; by vm_compute.
  - by vm_compute.
  - intros x Hx. lia.
  - exists t'. split_and!; [done | done |].
    assert (Done (1, t') = set t 13 213) as Heq by (by rewrite <- Hs).
    vm_compute in Heq. injection Heq as ->. by vm_compute.
Defined.

(** C10 at [fill 3] and the absent key 99. *)
Lemma remove_miss_witness :
  let t := table_after (fill 3) in
  (remove t 99).1.1 = 0
  ∧ remove t 99 = (0, t, None) ∧ log (remove t 99).1.2 = log t.
Proof.
  intros t.
  assert ((remove t 99).1.1 = 0) as Hmiss by (by vm_compute).
  split; [done|].
  exact (remove_miss_unchanged hash_id compare_short assign_short
           assign_long t 99 None Hmiss).
Defined.

End Runs.
